(** * core/commands/root.go: the command trees of go-ipfs

    A shallow embedding of [core/commands/root.go].  The file declares the
    full command tree [Root], the read-only tree [RootRO], the four maps of
    children that [init] attaches to them, and the text marshaler
    [MessageTextMarshaler].

    Go pointers and Go maps are references, and several properties of the
    file are about which references are shared.  The embedding therefore keeps
    an explicit heap: two stores of command structs (the two command
    representations, [cmds.Command] and [oldcmds.Command]) and two stores of
    children maps, with allocation, load and store written out. *)

From stdpp Require Import gmap strings list fin_maps.

Local Open Scope string_scope.

(** ** References *)

(** The address of a command struct ([*cmds.Command], [*oldcmds.Command]). *)
Abbreviation ptr := positive (only parsing).

(** A Go map value: [None] is the nil map, [Some i] refers to the hash table
    allocated under [i]. *)
Abbreviation mapref := (option positive) (only parsing).

(** ** Package [cmdsutil] (go-ipfs-cmdkit): help texts and options *)

Module cmdsutil.

(** The fields of [cmdsutil.HelpText] that root.go fills in. *)
Record HelpText := {
  Tagline : string;
  Synopsis : string;
  Subcommands : string;
}.

Definition noHelp : HelpText :=
  {| Tagline := EmptyString; Synopsis := EmptyString; Subcommands := EmptyString |}.

(** [reflect.Kind] of an option, for the two kinds root.go uses. *)
Inductive Kind := Bool | String.

(** A default value, as stored by [Option.Default]. *)
Inductive Value := BoolValue (b : bool) | StringValue (s : string).

(** Modelled from the spec: the option type of go-ipfs-cmdkit is not part
    of this repository's sources.  The spec gives it a name, an optional
    alias, a type, a default value and a description; root.go builds
    options from a list of names whose last entry is the description. *)
Record Option := {
  Names : list string;
  OptType : Kind;
  Description : string;
  DefaultVal : option Value;
}.

Definition NewOption (kind : Kind) (names : list string) : Option :=
  {| Names := removelast names;
     OptType := kind;
     Description := List.last names EmptyString;
     DefaultVal := None |}.

Definition StringOption (names : list string) : Option := NewOption String names.
Definition BoolOption (names : list string) : Option := NewOption Bool names.

(** [o.Default(v)] *)
Definition Default (v : Value) (o : Option) : Option :=
  {| Names := Names o; OptType := OptType o; Description := Description o;
     DefaultVal := Some v |}.

(** The long name and the alias of an option. *)
Definition name (o : Option) : string := List.hd EmptyString (Names o).
Definition alias (o : Option) : option string := List.nth_error (Names o) 1.

#[global] Instance Kind_eq_dec : EqDecision Kind.
Proof. solve_decision. Defined.
#[global] Instance Value_eq_dec : EqDecision Value.
Proof. solve_decision. Defined.
#[global] Instance HelpText_eq_dec : EqDecision HelpText.
Proof. solve_decision. Defined.
#[global] Instance Option_eq_dec : EqDecision Option.
Proof. solve_decision. Defined.

End cmdsutil.

(** ** Handlers *)

(** The [Run] function of a command.  Handlers of commands declared in other
    files are opaque; the handler built by [CommandsCmd] closes over the root
    it was given. *)
Inductive Handler :=
| ExternRun (id : positive)
| ListCommands (root : ptr)
| RunExternalBinary.

#[global] Instance Handler_eq_dec : EqDecision Handler.
Proof. solve_decision. Defined.

(** ** Package [oldcmds]: the legacy command representation *)

Module oldcmds.

(** [Rest] stands for the fields root.go never names (Arguments, PreRun,
    PostRun, Marshalers, External, Type); they are carried along by a
    struct copy. *)
Record Command := {
  Options : list cmdsutil.Option;
  Run : option Handler;
  Helptext : cmdsutil.HelpText;
  Rest : positive;
  Subcommands : mapref;
}.

(** [oldcmds.Command{}] *)
Definition zero : Command :=
  {| Options := []; Run := None; Helptext := cmdsutil.noHelp;
     Rest := 1%positive; Subcommands := None |}.

Definition set_Subcommands (m : mapref) (c : Command) : Command :=
  {| Options := Options c; Run := Run c; Helptext := Helptext c;
     Rest := Rest c; Subcommands := m |}.

#[global] Instance Command_eq_dec : EqDecision Command.
Proof. solve_decision. Defined.

End oldcmds.

(** ** Package [cmds] (go-ipfs-cmds): the modern command representation *)

Module cmds.

Record Command := {
  Options : list cmdsutil.Option;
  Run : option Handler;
  Helptext : cmdsutil.HelpText;
  Rest : positive;
  Subcommands : mapref;
  OldSubcommands : mapref;
}.

(** [cmds.Command{}] *)
Definition zero : Command :=
  {| Options := []; Run := None; Helptext := cmdsutil.noHelp;
     Rest := 1%positive; Subcommands := None; OldSubcommands := None |}.

Definition set_Helptext (t : cmdsutil.HelpText) (c : Command) : Command :=
  {| Options := Options c; Run := Run c; Helptext := t;
     Rest := Rest c; Subcommands := Subcommands c;
     OldSubcommands := OldSubcommands c |}.

Definition set_Subcommands (m : mapref) (c : Command) : Command :=
  {| Options := Options c; Run := Run c; Helptext := Helptext c;
     Rest := Rest c; Subcommands := m;
     OldSubcommands := OldSubcommands c |}.

Definition set_OldSubcommands (m : mapref) (c : Command) : Command :=
  {| Options := Options c; Run := Run c; Helptext := Helptext c;
     Rest := Rest c; Subcommands := Subcommands c;
     OldSubcommands := m |}.

#[global] Instance Command_eq_dec : EqDecision Command.
Proof. solve_decision. Defined.

End cmds.

(** ** The heap *)

Record Heap := {
  cmd_store : gmap positive cmds.Command;
  old_store : gmap positive oldcmds.Command;
  cmd_maps : gmap positive (gmap string positive);
  old_maps : gmap positive (gmap string positive);
}.

Definition with_cmd_store (s : gmap positive cmds.Command) (h : Heap) : Heap :=
  {| cmd_store := s; old_store := old_store h;
     cmd_maps := cmd_maps h; old_maps := old_maps h |}.

Definition with_old_store (s : gmap positive oldcmds.Command) (h : Heap) : Heap :=
  {| cmd_store := cmd_store h; old_store := s;
     cmd_maps := cmd_maps h; old_maps := old_maps h |}.

Definition with_cmd_maps (s : gmap positive (gmap string positive)) (h : Heap) : Heap :=
  {| cmd_store := cmd_store h; old_store := old_store h;
     cmd_maps := s; old_maps := old_maps h |}.

Definition with_old_maps (s : gmap positive (gmap string positive)) (h : Heap) : Heap :=
  {| cmd_store := cmd_store h; old_store := old_store h;
     cmd_maps := cmd_maps h; old_maps := s |}.

(** ** Heap computations

    A computation takes the heap and either panics ([None], a nil or dangling
    dereference, an assignment into a nil map) or returns a value and the
    heap it leaves. *)

Definition M (A : Type) : Type := Heap → option (A * Heap).

Definition ret {A} (a : A) : M A := λ h, Some (a, h).

Definition bind {A B} (m : M A) (k : A → M B) : M B :=
  λ h, match m h with
       | Some (a, h') => k a h'
       | None => None
       end.

Declare Scope go_scope.
Delimit Scope go_scope with go.
Notation "x <- m ;; k" := (bind m (λ x, k))
  (at level 100, m at next level, right associativity) : go_scope.
Notation "m ;; k" := (bind m (λ _, k))
  (at level 100, right associativity) : go_scope.
Local Open Scope go_scope.

(** [&cmds.Command{...}]: a new struct at an address not in use. *)
Definition new_cmd (c : cmds.Command) : M ptr :=
  λ h, let p := fresh (dom (cmd_store h)) in
       Some (p, with_cmd_store (<[p := c]> (cmd_store h)) h).

(** [&oldcmds.Command{...}] *)
Definition new_old (c : oldcmds.Command) : M ptr :=
  λ h, let p := fresh (dom (old_store h)) in
       Some (p, with_old_store (<[p := c]> (old_store h)) h).

(** [map[string]*cmds.Command{k1: v1, ...}]: a new hash table. *)
Definition make_cmd_map (kvs : list (string * ptr)) : M mapref :=
  λ h, let i := fresh (dom (cmd_maps h)) in
       Some (Some i, with_cmd_maps (<[i := list_to_map kvs]> (cmd_maps h)) h).

(** [map[string]*oldcmds.Command{k1: v1, ...}] *)
Definition make_old_map (kvs : list (string * ptr)) : M mapref :=
  λ h, let i := fresh (dom (old_maps h)) in
       Some (Some i, with_old_maps (<[i := list_to_map kvs]> (old_maps h)) h).

(** [*p] for [p : *cmds.Command] *)
Definition load_cmd (p : ptr) : M cmds.Command :=
  λ h, match cmd_store h !! p with
       | Some c => Some (c, h)
       | None => None
       end.

(** [*p = c] *)
Definition store_cmd (p : ptr) (c : cmds.Command) : M unit :=
  λ h, match cmd_store h !! p with
       | Some _ => Some (tt, with_cmd_store (<[p := c]> (cmd_store h)) h)
       | None => None
       end.

Definition load_old (p : ptr) : M oldcmds.Command :=
  λ h, match old_store h !! p with
       | Some c => Some (c, h)
       | None => None
       end.

Definition store_old (p : ptr) (c : oldcmds.Command) : M unit :=
  λ h, match old_store h !! p with
       | Some _ => Some (tt, with_old_store (<[p := c]> (old_store h)) h)
       | None => None
       end.

(** Reading a Go map: a nil map reads as the empty map. *)
Definition map_contents (s : gmap positive (gmap string positive)) (m : mapref)
  : option (gmap string positive) :=
  match m with
  | None => Some ∅
  | Some i => s !! i
  end.

(** [m[k] = v]: assignment into a nil map panics. *)
Definition cmd_map_assign (m : mapref) (k : string) (v : ptr) : M unit :=
  λ h, match m with
       | None => None
       | Some i =>
           match cmd_maps h !! i with
           | Some t => Some (tt, with_cmd_maps (<[i := <[k := v]> t]> (cmd_maps h)) h)
           | None => None
           end
       end.

Definition old_map_assign (m : mapref) (k : string) (v : ptr) : M unit :=
  λ h, match m with
       | None => None
       | Some i =>
           match old_maps h !! i with
           | Some t => Some (tt, with_old_maps (<[i := <[k := v]> t]> (old_maps h)) h)
           | None => None
           end
       end.

(** [delete(m, k)]: a no-op on a nil map. *)
Definition cmd_map_delete (m : mapref) (k : string) : M unit :=
  λ h, match m with
       | None => Some (tt, h)
       | Some i =>
           match cmd_maps h !! i with
           | Some t => Some (tt, with_cmd_maps (<[i := delete k t]> (cmd_maps h)) h)
           | None => None
           end
       end.

Definition old_map_delete (m : mapref) (k : string) : M unit :=
  λ h, match m with
       | None => Some (tt, h)
       | Some i =>
           match old_maps h !! i with
           | Some t => Some (tt, with_old_maps (<[i := delete k t]> (old_maps h)) h)
           | None => None
           end
       end.

(** [p.Subcommands = m], [p.OldSubcommands = m] through a pointer. *)
Definition assign_Subcommands (p : ptr) (m : mapref) : M unit :=
  c <- load_cmd p ;; store_cmd p (cmds.set_Subcommands m c).

Definition assign_OldSubcommands (p : ptr) (m : mapref) : M unit :=
  c <- load_cmd p ;; store_cmd p (cmds.set_OldSubcommands m c).

Definition assign_old_Subcommands (p : ptr) (m : mapref) : M unit :=
  c <- load_old p ;; store_old p (oldcmds.set_Subcommands m c).

(** ** Commands declared outside root.go

    root.go refers to commands that other files of the package, and the
    packages [dag], [files], [ocmd] and [unixfs], declare.  They exist before
    the variables of root.go are initialised; the environment gives the
    address each of these variables holds. *)

Inductive ModernVar :=
| AddCmd | BlockCmd | CatCmd | GetCmd | FileStoreCmd
| blockStatCmd | blockGetCmd.

Inductive LegacyVar :=
| BootstrapCmd | ConfigCmd | dag_DagCmd | DhtCmd | DiagCmd | DNSCmd
| files_FilesCmd | IDCmd | KeyCmd | LogCmd | LsCmd | MountCmd | NameCmd
| ocmd_ObjectCmd | PinCmd | PingCmd | PTPCmd | PubsubCmd | RefsCmd | RepoCmd
| ResolveCmd | StatsCmd | SwarmCmd | TarCmd | tourCmd | unixfs_UnixFSCmd
| VersionCmd | BitswapCmd | daemonShutdownCmd
| IpnsCmd
| ocmd_ObjectDataCmd | ocmd_ObjectLinksCmd | ocmd_ObjectGetCmd
| ocmd_ObjectStatCmd | ocmd_ObjectPatchCmd
| dag_DagGetCmd.

#[global] Instance ModernVar_eq_dec : EqDecision ModernVar.
Proof. solve_decision. Defined.
#[global] Instance LegacyVar_eq_dec : EqDecision LegacyVar.
Proof. solve_decision. Defined.

Definition all_ModernVar : list ModernVar :=
  [AddCmd; BlockCmd; CatCmd; GetCmd; FileStoreCmd; blockStatCmd; blockGetCmd].

Definition all_LegacyVar : list LegacyVar :=
  [BootstrapCmd; ConfigCmd; dag_DagCmd; DhtCmd; DiagCmd; DNSCmd;
   files_FilesCmd; IDCmd; KeyCmd; LogCmd; LsCmd; MountCmd; NameCmd;
   ocmd_ObjectCmd; PinCmd; PingCmd; PTPCmd; PubsubCmd; RefsCmd; RepoCmd;
   ResolveCmd; StatsCmd; SwarmCmd; TarCmd; tourCmd; unixfs_UnixFSCmd;
   VersionCmd; BitswapCmd; daemonShutdownCmd;
   IpnsCmd;
   ocmd_ObjectDataCmd; ocmd_ObjectLinksCmd; ocmd_ObjectGetCmd;
   ocmd_ObjectStatCmd; ocmd_ObjectPatchCmd;
   dag_DagGetCmd].

(** [process_help] is what [ProcessHelp] of go-ipfs-cmds does to the help
    text of a command it visits. *)
Record Env := {
  modern : ModernVar → ptr;
  legacy : LegacyVar → ptr;
  process_help : cmdsutil.HelpText → cmdsutil.HelpText;
}.

(** The package-level variables of root.go. *)
Record Vars := {
  Root : ptr;
  CommandsDaemonCmd : ptr;
  rootSubcommands : mapref;
  rootOldSubcommands : mapref;
  RootRO : ptr;
  CommandsDaemonROCmd : ptr;
  RefsROCmd : ptr;
  rootROSubcommands : mapref;
  rootROOldSubcommands : mapref;
}.

Definition ApiOption : string := "api".

Definition RootHelptext : cmdsutil.HelpText :=
  {| cmdsutil.Tagline := "Global p2p merkle-dag filesystem.";
     cmdsutil.Synopsis := "ipfs [--config=<config> | -c] [--debug=<debug> | -D] [--help=<help>] [-h=<h>] [--local=<local> | -L] [--api=<api>] <command> ...";
     cmdsutil.Subcommands := "
BASIC COMMANDS
  init          Initialize ipfs local configuration
  add <path>    Add a file to IPFS
  cat <ref>     Show IPFS object data
  get <ref>     Download IPFS objects
  ls <ref>      List links from an object
  refs <ref>    List hashes of links from an object

DATA STRUCTURE COMMANDS
  block         Interact with raw blocks in the datastore
  object        Interact with raw dag nodes
  files         Interact with objects as if they were a unix filesystem
  dag           Interact with IPLD documents (experimental)

ADVANCED COMMANDS
  daemon        Start a long-running daemon process
  mount         Mount an IPFS read-only mountpoint
  resolve       Resolve any type of name
  name          Publish and resolve IPNS names
  key           Create and list IPNS name keypairs
  dns           Resolve DNS links
  pin           Pin objects to local storage
  repo          Manipulate the IPFS repository
  stats         Various operational stats
  ptp           Libp2p stream mounting
  filestore     Manage the filestore (experimental)

NETWORK COMMANDS
  id            Show info about IPFS peers
  bootstrap     Add or remove bootstrap peers
  swarm         Manage connections to the p2p network
  dht           Query the DHT for values or peers
  ping          Measure the latency of a connection
  diag          Print diagnostics

TOOL COMMANDS
  config        Manage configuration
  version       Show ipfs version information
  update        Download and apply go-ipfs updates
  commands      List all available commands

Use 'ipfs <command> --help' to learn more about each command.

ipfs uses a repository in the local file system. By default, the repo is located
at ~/.ipfs. To change the repo location, set the $IPFS_PATH environment variable:

  export IPFS_PATH=/path/to/ipfsrepo

EXIT STATUS

The CLI will exit with one of the following values:

0     Successful execution.
1     Failed executions.
" |}.

Definition RootOptions : list cmdsutil.Option :=
  [ cmdsutil.StringOption ["config"; "c"; "Path to the configuration file to use."];
    cmdsutil.Default (cmdsutil.BoolValue false)
      (cmdsutil.BoolOption ["debug"; "D"; "Operate in debug mode."]);
    cmdsutil.Default (cmdsutil.BoolValue false)
      (cmdsutil.BoolOption ["help"; "Show the full command help text."]);
    cmdsutil.Default (cmdsutil.BoolValue false)
      (cmdsutil.BoolOption ["h"; "Show a short version of the command help text."]);
    cmdsutil.Default (cmdsutil.BoolValue false)
      (cmdsutil.BoolOption ["local"; "L"; "Run the command locally, instead of using the daemon."]);
    cmdsutil.StringOption [ApiOption; "Use a specific API instance (defaults to /ip4/127.0.0.1/tcp/5001)"] ].

(** The struct [Root] points to when the package variables are initialised:
    help text and options, no handler, both children maps nil. *)
Definition RootLit : cmds.Command :=
  {| cmds.Options := RootOptions;
     cmds.Run := None;
     cmds.Helptext := RootHelptext;
     cmds.Rest := 1%positive;
     cmds.Subcommands := None;
     cmds.OldSubcommands := None |}.

(** ** Constructors declared in other files of the package *)

(** Modelled from the spec: [CommandsCmd] (core/commands/commands.go) is not
    among the sources.  The spec describes the command as "List all available
    commands": a leaf with a handler and no children, whose handler lists the
    commands of the root it was built over. *)
Definition CommandsLit (root : ptr) : cmds.Command :=
  {| cmds.Options := [];
     cmds.Run := Some (ListCommands root);
     cmds.Helptext :=
       {| cmdsutil.Tagline := "List all available commands";
          cmdsutil.Synopsis := EmptyString;
          cmdsutil.Subcommands := EmptyString |};
     cmds.Rest := 1%positive;
     cmds.Subcommands := None;
     cmds.OldSubcommands := None |}.

(** Modelled from the spec: [CommandsCmd(root)] returns the address of a new
    command of that shape; two calls give two commands. *)
Definition CommandsCmd (root : ptr) : M ptr := new_cmd (CommandsLit root).

(** Modelled from the spec: [ExternalBinary] (core/commands/external.go) is
    not among the sources.  The spec describes its result as a leaf that
    forwards to an externally fetched binary: a handler and zero children. *)
Definition ExternalBinaryLit : oldcmds.Command :=
  {| oldcmds.Options := [];
     oldcmds.Run := Some RunExternalBinary;
     oldcmds.Helptext := cmdsutil.noHelp;
     oldcmds.Rest := 1%positive;
     oldcmds.Subcommands := None |}.

(** Modelled from the spec: [ExternalBinary()] returns the address of a new
    command of that shape. *)
Definition ExternalBinary : M ptr := new_old ExternalBinaryLit.

(** The children of a root as a request sees them: the contents of the two
    maps its struct refers to at that moment. *)
Definition children (h : Heap) (root : ptr)
  : option (gmap string positive * gmap string positive) :=
  match cmd_store h !! root with
  | Some c =>
      match map_contents (cmd_maps h) (cmds.Subcommands c),
            map_contents (old_maps h) (cmds.OldSubcommands c) with
      | Some s, Some o => Some (s, o)
      | _, _ => None
      end
  | None => None
  end.


(** ** root.go *)

Section RootGo.

Context (E : Env).

(** [Root.ProcessHelp()].  The library walks the receiver and the commands
    below it; at the only call, in [init], the receiver has no children
    yet, so the walk visits the receiver alone. *)
Definition ProcessHelp (p : ptr) : M unit :=
  c <- load_cmd p ;;
  store_cmd p (cmds.set_Helptext (process_help E (cmds.Helptext c)) c).

Definition rootSubcommands_lit (CommandsDaemonCmd : ptr) : list (string * ptr) :=
  [ ("add", modern E AddCmd);
    ("block", modern E BlockCmd);
    ("cat", modern E CatCmd);
    ("commands", CommandsDaemonCmd);
    ("get", modern E GetCmd);
    ("filestore", modern E FileStoreCmd) ].

Definition rootOldSubcommands_lit (update : ptr) : list (string * ptr) :=
  [ ("bootstrap", legacy E BootstrapCmd);
    ("config", legacy E ConfigCmd);
    ("dag", legacy E dag_DagCmd);
    ("dht", legacy E DhtCmd);
    ("diag", legacy E DiagCmd);
    ("dns", legacy E DNSCmd);
    ("files", legacy E files_FilesCmd);
    ("id", legacy E IDCmd);
    ("key", legacy E KeyCmd);
    ("log", legacy E LogCmd);
    ("ls", legacy E LsCmd);
    ("mount", legacy E MountCmd);
    ("name", legacy E NameCmd);
    ("object", legacy E ocmd_ObjectCmd);
    ("pin", legacy E PinCmd);
    ("ping", legacy E PingCmd);
    ("ptp", legacy E PTPCmd);
    ("pubsub", legacy E PubsubCmd);
    ("refs", legacy E RefsCmd);
    ("repo", legacy E RepoCmd);
    ("resolve", legacy E ResolveCmd);
    ("stats", legacy E StatsCmd);
    ("swarm", legacy E SwarmCmd);
    ("tar", legacy E TarCmd);
    ("tour", legacy E tourCmd);
    ("file", legacy E unixfs_UnixFSCmd);
    ("update", update);
    ("version", legacy E VersionCmd);
    ("bitswap", legacy E BitswapCmd);
    ("shutdown", legacy E daemonShutdownCmd) ].

Definition blockRO_lit : list (string * ptr) :=
  [ ("stat", modern E blockStatCmd);
    ("get", modern E blockGetCmd) ].

Definition rootROSubcommands_lit (CommandsDaemonROCmd blockRO : ptr)
  : list (string * ptr) :=
  [ ("commands", CommandsDaemonROCmd);
    ("cat", modern E CatCmd);
    ("block", blockRO);
    ("get", modern E GetCmd) ].

Definition nameRO_lit : list (string * ptr) :=
  [ ("resolve", legacy E IpnsCmd) ].

Definition objectRO_lit : list (string * ptr) :=
  [ ("data", legacy E ocmd_ObjectDataCmd);
    ("links", legacy E ocmd_ObjectLinksCmd);
    ("get", legacy E ocmd_ObjectGetCmd);
    ("stat", legacy E ocmd_ObjectStatCmd);
    ("patch", legacy E ocmd_ObjectPatchCmd) ].

Definition dagRO_lit : list (string * ptr) :=
  [ ("get", legacy E dag_DagGetCmd) ].

Definition rootROOldSubcommands_lit (nameRO objectRO dagRO RefsROCmd : ptr)
  : list (string * ptr) :=
  [ ("dns", legacy E DNSCmd);
    ("ls", legacy E LsCmd);
    ("name", nameRO);
    ("object", objectRO);
    ("dag", dagRO);
    ("refs", RefsROCmd);
    ("resolve", legacy E ResolveCmd);
    ("version", legacy E VersionCmd) ].

(** [&oldcmds.Command{Subcommands: map[string]*oldcmds.Command{...}}] *)
Definition new_old_namespace (kvs : list (string * ptr)) : M ptr :=
  m <- make_old_map kvs ;;
  new_old (oldcmds.set_Subcommands m oldcmds.zero).

(** [&cmds.Command{Subcommands: map[string]*cmds.Command{...}}] *)
Definition new_cmd_namespace (kvs : list (string * ptr)) : M ptr :=
  m <- make_cmd_map kvs ;;
  new_cmd (cmds.set_Subcommands m cmds.zero).

(** The initialisers of the package-level variables, in declaration order:
    each one depends only on variables declared above it and on variables
    of other files. *)
Definition package_vars : M Vars :=
  Root <- new_cmd RootLit ;;
  CommandsDaemonCmd <- CommandsCmd Root ;;
  rootSubcommands <- make_cmd_map (rootSubcommands_lit CommandsDaemonCmd) ;;
  update <- ExternalBinary ;;
  rootOldSubcommands <- make_old_map (rootOldSubcommands_lit update) ;;
  RootRO <- new_cmd cmds.zero ;;
  CommandsDaemonROCmd <- CommandsCmd RootRO ;;
  RefsROCmd <- new_old oldcmds.zero ;;
  blockRO <- new_cmd_namespace blockRO_lit ;;
  rootROSubcommands <-
    make_cmd_map (rootROSubcommands_lit CommandsDaemonROCmd blockRO) ;;
  nameRO <- new_old_namespace nameRO_lit ;;
  objectRO <- new_old_namespace objectRO_lit ;;
  dagRO <- new_old_namespace dagRO_lit ;;
  rootROOldSubcommands <-
    make_old_map (rootROOldSubcommands_lit nameRO objectRO dagRO RefsROCmd) ;;
  ret {| Root := Root;
         CommandsDaemonCmd := CommandsDaemonCmd;
         rootSubcommands := rootSubcommands;
         rootOldSubcommands := rootOldSubcommands;
         RootRO := RootRO;
         CommandsDaemonROCmd := CommandsDaemonROCmd;
         RefsROCmd := RefsROCmd;
         rootROSubcommands := rootROSubcommands;
         rootROOldSubcommands := rootROOldSubcommands |}.

(** [func init()] *)
Definition init (v : Vars) : M unit :=
  ProcessHelp (Root v) ;;
  (c <- load_cmd (Root v) ;; store_cmd (RootRO v) c) ;;
  (c <- load_old (legacy E RefsCmd) ;; store_old (RefsROCmd v) c) ;;
  (m <- make_old_map [] ;; assign_old_Subcommands (RefsROCmd v) m) ;;
  assign_OldSubcommands (Root v) (rootOldSubcommands v) ;;
  assign_Subcommands (Root v) (rootSubcommands v) ;;
  assign_OldSubcommands (RootRO v) (rootROOldSubcommands v) ;;
  assign_Subcommands (RootRO v) (rootROSubcommands v).

(** Package initialisation: the variables, then [init]. *)
Definition startup : M Vars :=
  v <- package_vars ;;
  init v ;;
  ret v.

End RootGo.

(** ** Well-formed initial heaps *)

(** A map reference is live when it is nil or refers to an allocated table. *)
Definition mapref_live (s : gmap positive (gmap string positive)) (m : mapref) : Prop :=
  match m with
  | None => True
  | Some i => i ∈ dom s
  end.

(** What the initialisation of root.go relies on: every variable it reads from
    other files holds the address of an allocated command, and the children
    map of [RefsCmd], which [init] copies, is live. *)
Record env_wf (E : Env) (h : Heap) : Prop := {
  wf_modern : ∀ x, modern E x ∈ dom (cmd_store h);
  wf_legacy : ∀ x, legacy E x ∈ dom (old_store h);
  wf_refs : ∀ c, old_store h !! legacy E RefsCmd = Some c →
                 mapref_live (old_maps h) (oldcmds.Subcommands c);
}.

(** A decision procedure for [env_wf], over the lists of variables. *)
Definition mapref_liveb (s : gmap positive (gmap string positive)) (m : mapref) : bool :=
  match m with
  | None => true
  | Some i => bool_decide (i ∈ dom s)
  end.

Definition env_wfb (E : Env) (h : Heap) : bool :=
  forallb (λ x, bool_decide (modern E x ∈ dom (cmd_store h))) all_ModernVar
  && forallb (λ x, bool_decide (legacy E x ∈ dom (old_store h))) all_LegacyVar
  && match old_store h !! legacy E RefsCmd with
     | Some c => mapref_liveb (old_maps h) (oldcmds.Subcommands c)
     | None => true
     end.


(** ** The heap that initialisation leaves *)

(** Addresses that initialisation allocates and no package variable names:
    the command [ExternalBinary] returns, the namespace nodes of the
    read-only tree with their tables, and the table [init] gives to
    [RefsROCmd]. *)
Record Aux := {
  update : ptr;
  blockRO : ptr;
  nameRO : ptr;
  objectRO : ptr;
  dagRO : ptr;
  t_root : positive;
  t_rootOld : positive;
  t_rootRO : positive;
  t_rootROOld : positive;
  t_block : positive;
  t_name : positive;
  t_object : positive;
  t_dag : positive;
  t_refsRO : positive;
}.

(** What [Root] and [RootRO] point to once [init] has run. *)
Definition root_final (E : Env) (s o : mapref) : cmds.Command :=
  {| cmds.Options := RootOptions;
     cmds.Run := None;
     cmds.Helptext := process_help E RootHelptext;
     cmds.Rest := 1%positive;
     cmds.Subcommands := s;
     cmds.OldSubcommands := o |}.

Record started (E : Env) (h0 : Heap) (v : Vars) (a : Aux) (h : Heap) : Prop := {
  (* the four package-level maps are four tables *)
  st_rootSubcommands : rootSubcommands v = Some (t_root a);
  st_rootOldSubcommands : rootOldSubcommands v = Some (t_rootOld a);
  st_rootROSubcommands : rootROSubcommands v = Some (t_rootRO a);
  st_rootROOldSubcommands : rootROOldSubcommands v = Some (t_rootROOld a);
  (* every allocation is new and separate from the others *)
  st_new_cmds :
    NoDup [Root v; CommandsDaemonCmd v; RootRO v; CommandsDaemonROCmd v; blockRO a];
  st_fresh_cmds :
    ∀ p, p ∈ [Root v; CommandsDaemonCmd v; RootRO v; CommandsDaemonROCmd v; blockRO a] →
         p ∉ dom (cmd_store h0);
  st_new_olds :
    NoDup [update a; RefsROCmd v; nameRO a; objectRO a; dagRO a];
  st_fresh_olds :
    ∀ p, p ∈ [update a; RefsROCmd v; nameRO a; objectRO a; dagRO a] →
         p ∉ dom (old_store h0);
  st_new_cmd_maps : NoDup [t_root a; t_rootRO a; t_block a];
  st_fresh_cmd_maps :
    ∀ i, i ∈ [t_root a; t_rootRO a; t_block a] → i ∉ dom (cmd_maps h0);
  st_new_old_maps :
    NoDup [t_rootOld a; t_rootROOld a; t_name a; t_object a; t_dag a; t_refsRO a];
  st_fresh_old_maps :
    ∀ i, i ∈ [t_rootOld a; t_rootROOld a; t_name a; t_object a; t_dag a; t_refsRO a] →
         i ∉ dom (old_maps h0);
  (* modern commands *)
  st_Root :
    cmd_store h !! Root v
    = Some (root_final E (rootSubcommands v) (rootOldSubcommands v));
  st_RootRO :
    cmd_store h !! RootRO v
    = Some (root_final E (rootROSubcommands v) (rootROOldSubcommands v));
  st_CommandsDaemonCmd :
    cmd_store h !! CommandsDaemonCmd v = Some (CommandsLit (Root v));
  st_CommandsDaemonROCmd :
    cmd_store h !! CommandsDaemonROCmd v = Some (CommandsLit (RootRO v));
  st_blockRO :
    cmd_store h !! blockRO a
    = Some (cmds.set_Subcommands (Some (t_block a)) cmds.zero);
  st_cmd_frame :
    ∀ p, p ∈ dom (cmd_store h0) → cmd_store h !! p = cmd_store h0 !! p;
  (* legacy commands *)
  st_update : old_store h !! update a = Some ExternalBinaryLit;
  st_RefsROCmd :
    ∃ c, old_store h0 !! legacy E RefsCmd = Some c ∧
         old_store h !! RefsROCmd v
         = Some (oldcmds.set_Subcommands (Some (t_refsRO a)) c);
  st_nameRO :
    old_store h !! nameRO a
    = Some (oldcmds.set_Subcommands (Some (t_name a)) oldcmds.zero);
  st_objectRO :
    old_store h !! objectRO a
    = Some (oldcmds.set_Subcommands (Some (t_object a)) oldcmds.zero);
  st_dagRO :
    old_store h !! dagRO a
    = Some (oldcmds.set_Subcommands (Some (t_dag a)) oldcmds.zero);
  st_old_frame :
    ∀ p, p ∈ dom (old_store h0) → old_store h !! p = old_store h0 !! p;
  (* tables of modern children *)
  st_t_root :
    cmd_maps h !! t_root a
    = Some (list_to_map (rootSubcommands_lit E (CommandsDaemonCmd v)));
  st_t_rootRO :
    cmd_maps h !! t_rootRO a
    = Some (list_to_map (rootROSubcommands_lit E (CommandsDaemonROCmd v) (blockRO a)));
  st_t_block :
    cmd_maps h !! t_block a = Some (list_to_map (blockRO_lit E));
  st_cmd_maps_frame :
    ∀ i, i ∈ dom (cmd_maps h0) → cmd_maps h !! i = cmd_maps h0 !! i;
  (* tables of legacy children *)
  st_t_rootOld :
    old_maps h !! t_rootOld a
    = Some (list_to_map (rootOldSubcommands_lit E (update a)));
  st_t_rootROOld :
    old_maps h !! t_rootROOld a
    = Some (list_to_map
              (rootROOldSubcommands_lit E (nameRO a) (objectRO a) (dagRO a)
                 (RefsROCmd v)));
  st_t_name : old_maps h !! t_name a = Some (list_to_map (nameRO_lit E));
  st_t_object : old_maps h !! t_object a = Some (list_to_map (objectRO_lit E));
  st_t_dag : old_maps h !! t_dag a = Some (list_to_map (dagRO_lit E));
  st_t_refsRO : old_maps h !! t_refsRO a = Some ∅;
  st_old_maps_frame :
    ∀ i, i ∈ dom (old_maps h0) → old_maps h !! i = old_maps h0 !! i;
}.

(** ** Mutating a children map

    What a test harness does to one of the two children maps of a root:
    [root.Subcommands[k] = p], [delete(root.OldSubcommands, k)], and so on. *)

Inductive Mutation :=
| Insert (k : string) (p : ptr)
| Delete (k : string).

Inductive ChildrenMap := TheSubcommands | TheOldSubcommands.

Definition mutate (root : ptr) (f : ChildrenMap) (mu : Mutation) : M unit :=
  c <- load_cmd root ;;
  match f, mu with
  | TheSubcommands, Insert k p => cmd_map_assign (cmds.Subcommands c) k p
  | TheSubcommands, Delete k => cmd_map_delete (cmds.Subcommands c) k
  | TheOldSubcommands, Insert k p => old_map_assign (cmds.OldSubcommands c) k p
  | TheOldSubcommands, Delete k => old_map_delete (cmds.OldSubcommands c) k
  end.

(** The same mutation on the contents of a table. *)
Definition apply_mutation (mu : Mutation) (t : gmap string positive)
  : gmap string positive :=
  match mu with
  | Insert k p => <[k := p]> t
  | Delete k => delete k t
  end.

Definition mutate_children (f : ChildrenMap) (mu : Mutation)
    (so : gmap string positive * gmap string positive)
  : gmap string positive * gmap string positive :=
  match f with
  | TheSubcommands => (apply_mutation mu so.1, so.2)
  | TheOldSubcommands => (so.1, apply_mutation mu so.2)
  end.

(** ** The text marshaler *)

Record MessageOutput := { Message : string }.

(** The dynamic type of an interface value; the nil interface has none. *)
Inductive GoType :=
| T_nil
| T_ptr_MessageOutput
| T_MessageOutput
| T_string
| T_other (name : string).

#[global] Instance GoType_eq_dec : EqDecision GoType.
Proof. solve_decision. Defined.

(** The values an [interface{}] may hold, as far as the marshaler can tell
    them apart: the nil interface, a [*MessageOutput] (possibly a nil
    pointer), a [MessageOutput] held by value, a string, and a value of any
    other named type. *)
Inductive iface :=
| Nil
| MessageOutputPtr (p : option MessageOutput)
| MessageOutputVal (m : MessageOutput)
| StringVal (s : string)
| OtherVal (type_name : string).

Definition typeOf (v : iface) : GoType :=
  match v with
  | Nil => T_nil
  | MessageOutputPtr _ => T_ptr_MessageOutput
  | MessageOutputVal _ => T_MessageOutput
  | StringVal _ => T_string
  | OtherVal n => T_other n
  end.

(** Modelled from the spec: [e.TypeErr] (core/commands/e) is not among the
    sources.  The spec's PayloadShapeMismatch names both the expected and
    the actual shape; [TypeErr] carries the dynamic types of its two
    arguments.  [OtherErr] stands for the errors of [unwrapOutput]. *)
Inductive error :=
| TypeErr (expected actual : GoType)
| OtherErr (msg : string).

Definition e_TypeErr (expected actual : iface) : error :=
  TypeErr (typeOf expected) (typeOf actual).

(** [io.Reader], as built by [strings.NewReader]. *)
Inductive Reader := strings_NewReader (s : string).

Definition ReadAll (r : Reader) : string :=
  match r with strings_NewReader s => s end.

(** [oldcmds.Response], of which the marshaler calls [Output()] only. *)
Record Response := { Output : iface }.

(** The type assertion of [v] to [*MessageOutput], in its two-result form. *)
Definition assert_ptr_MessageOutput (v : iface) : option MessageOutput * bool :=
  match v with
  | MessageOutputPtr p => (p, true)
  | _ => (None, false)
  end.

Section Marshal.

(** [unwrapOutput] is declared in another file of the package. *)
Context (unwrapOutput : iface → iface * option error).

(** The Go results [(io.Reader, error)]; [None] is a panic, the nil
    dereference [out.Message] of a nil [*MessageOutput]. *)
Definition MessageTextMarshaler (res : Response)
  : option (option Reader * option error) :=
  let '(v, err) := unwrapOutput (Output res) in
  match err with
  | Some e => Some (None, Some e)
  | None =>
      let '(out, ok) := assert_ptr_MessageOutput v in
      if negb ok then Some (None, Some (e_TypeErr (MessageOutputPtr out) v))
      else match out with
           | Some m => Some (Some (strings_NewReader (Message m)), None)
           | None => None
           end
  end.

End Marshal.

(** An [unwrapOutput] that hands the output over as it is. *)
Definition unwrap_plain (i : iface) : iface * option error := (i, None).

(** ** The properties as the specification words them *)

(** Subset property with reference-equal leaves: every name of the
    restricted root maps, in the full root, to the very same command. *)
Definition leaves_reference_equal (E : Env) (h0 : Heap) : Prop :=
  ∀ v h s o s' o',
    startup E h0 = Some (v, h) →
    children h (RootRO v) = Some (s, o) →
    children h (Root v) = Some (s', o') →
    (∀ name p, s !! name = Some p → s' !! name = Some p) ∧
    (∀ name p, o !! name = Some p → o' !! name = Some p).

(** One global option: long name, alias, type and default value. *)
Definition option_is (o : cmdsutil.Option) (name : string) (alias : option string)
    (kind : cmdsutil.Kind) (default : option cmdsutil.Value) : Prop :=
  cmdsutil.name o = name ∧ cmdsutil.alias o = alias ∧
  cmdsutil.OptType o = kind ∧ cmdsutil.DefaultVal o = default.

(** The six global options, [api] with the local endpoint as its default. *)
Definition six_options_api_default (opts : list cmdsutil.Option) : Prop :=
  ∃ config debug help h local api,
    opts = [config; debug; help; h; local; api] ∧
    option_is config "config" (Some "c") cmdsutil.String None ∧
    option_is debug "debug" (Some "D") cmdsutil.Bool (Some (cmdsutil.BoolValue false)) ∧
    option_is help "help" None cmdsutil.Bool (Some (cmdsutil.BoolValue false)) ∧
    option_is h "h" None cmdsutil.Bool (Some (cmdsutil.BoolValue false)) ∧
    option_is local "local" (Some "L") cmdsutil.Bool (Some (cmdsutil.BoolValue false)) ∧
    option_is api "api" None cmdsutil.String
      (Some (cmdsutil.StringValue "/ip4/127.0.0.1/tcp/5001")).

(** The six global options as root.go declares them: [api] has no default
    value; its description names the local endpoint. *)
Definition six_options (opts : list cmdsutil.Option) : Prop :=
  ∃ config debug help h local api,
    opts = [config; debug; help; h; local; api] ∧
    option_is config "config" (Some "c") cmdsutil.String None ∧
    option_is debug "debug" (Some "D") cmdsutil.Bool (Some (cmdsutil.BoolValue false)) ∧
    option_is help "help" None cmdsutil.Bool (Some (cmdsutil.BoolValue false)) ∧
    option_is h "h" None cmdsutil.Bool (Some (cmdsutil.BoolValue false)) ∧
    option_is local "local" (Some "L") cmdsutil.Bool (Some (cmdsutil.BoolValue false)) ∧
    option_is api "api" None cmdsutil.String None ∧
    cmdsutil.Description api
    = "Use a specific API instance (defaults to /ip4/127.0.0.1/tcp/5001)".

(** The top-level command names of the CLI surface. *)
Definition cli_surface : list string :=
  [ "add"; "cat"; "get"; "ls"; "refs"; "block"; "object"; "files"; "dag";
    "daemon"; "mount"; "resolve"; "name"; "key"; "dns"; "pin"; "repo";
    "stats"; "ptp"; "filestore"; "id"; "bootstrap"; "swarm"; "dht"; "ping";
    "diag"; "config"; "version"; "update"; "commands" ].

(** Every name of the CLI surface is a child of the full root. *)
Definition cli_surface_registered (E : Env) (h0 : Heap) : Prop :=
  ∀ v h s o,
    startup E h0 = Some (v, h) →
    children h (Root v) = Some (s, o) →
    ∀ name, name ∈ cli_surface → name ∈ dom s ∪ dom o.

(** ** A sample environment

    Every variable of the other files holds its own struct; [RefsCmd] has one
    child, as a command with nested subcommands does. *)

Definition index_of {A} `{EqDecision A} (l : list A) (x : A) : positive :=
  match list_find (λ y, y = x) l with
  | Some (i, _) => Pos.of_succ_nat i
  | None => 1%positive
  end.

Definition sample_cmd (x : ModernVar) : cmds.Command :=
  {| cmds.Options := [];
     cmds.Run := Some (ExternRun (index_of all_ModernVar x));
     cmds.Helptext := cmdsutil.noHelp;
     cmds.Rest := index_of all_ModernVar x;
     cmds.Subcommands := None;
     cmds.OldSubcommands := None |}.

Definition sample_old (x : LegacyVar) : oldcmds.Command :=
  {| oldcmds.Options := [];
     oldcmds.Run := Some (ExternRun (100 + index_of all_LegacyVar x));
     oldcmds.Helptext :=
       {| cmdsutil.Tagline :=
            if decide (x = RefsCmd) then "List links (references) from an object." else EmptyString;
          cmdsutil.Synopsis := EmptyString;
          cmdsutil.Subcommands := EmptyString |};
     oldcmds.Rest := index_of all_LegacyVar x;
     oldcmds.Subcommands := if decide (x = RefsCmd) then Some 1%positive else None |}.

Definition sample_env : Env :=
  {| modern := index_of all_ModernVar;
     legacy := index_of all_LegacyVar;
     process_help := λ t, t |}.

Definition sample_heap : Heap :=
  {| cmd_store := list_to_map ((λ x, (modern sample_env x, sample_cmd x)) <$> all_ModernVar);
     old_store := list_to_map ((λ x, (legacy sample_env x, sample_old x)) <$> all_LegacyVar);
     cmd_maps := ∅;
     old_maps := {[ 1%positive := {[ "local" := 40%positive ]} ]} |}.

(** What the restricted root and the full root hold under a name, in their
    modern and legacy children. *)
Definition entries_under (name : string) (r : Vars * Heap)
  : option (option positive * option positive) * option (option positive * option positive) :=
  let '(v, h) := r in
  ((λ c, (c.1 !! name, c.2 !! name)) <$> children h (RootRO v),
   (λ c, (c.1 !! name, c.2 !! name)) <$> children h (Root v)).

(** Reading a map literal: the first entry under the key. *)
Fixpoint assoc (k : string) (l : list (string * positive)) : option positive :=
  match l with
  | [] => None
  | (k', p) :: l => if String.eqb k k' then Some p else assoc k l
  end.

(** The children of a legacy command: the contents of the table its
    [Subcommands] field refers to. *)
Definition old_children (h : Heap) (p : ptr) : option (gmap string positive) :=
  match old_store h !! p with
  | Some c => map_contents (old_maps h) (oldcmds.Subcommands c)
  | None => None
  end.

(** ** The declarations of [files.FilesCmd] and [unixfs.UnixFSCmd] *)

(** The environment in which variable [x] holds the address [p]. *)
Definition with_legacy (E : Env) (x : LegacyVar) (p : ptr) : Env :=
  {| modern := modern E;
     legacy := λ y, if decide (y = x) then p else legacy E y;
     process_help := process_help E |}.

(** Modelled from the spec: the packages [files] and [unixfs] are not among
    the sources.  The spec speaks of a "files" command and of a separate
    "file" command pointing at a UnixFS command group, two independent
    registrations: each package declares its command with a composite
    literal of its own, [cf] for [files.FilesCmd] and [cu] for
    [unixfs.UnixFSCmd], before root.go reads the two variables. *)
Definition declare_files_unixfs (E : Env) (cf cu : oldcmds.Command) : M Env :=
  pf <- new_old cf ;;
  pu <- new_old cu ;;
  ret (with_legacy (with_legacy E files_FilesCmd pf) unixfs_UnixFSCmd pu).

(** The names of the full root that have no entry in the maps of the
    restricted root. *)
Definition hidden_names : list string :=
  [ "add"; "filestore";
    "bootstrap"; "config"; "dht"; "diag"; "files"; "id"; "key"; "log";
    "mount"; "pin"; "ping"; "ptp"; "pubsub"; "repo"; "stats"; "swarm";
    "tar"; "tour"; "file"; "update"; "bitswap"; "shutdown" ].

(** ** Stepping through heap computations *)

Lemma bind_run {A B} (m : M A) (k : A → M B) h a h' :
  m h = Some (a, h') → bind m k h = k a h'.
Proof. intros Hm. unfold bind. by rewrite Hm. Qed.

Lemma new_cmd_run c h :
  ∃ p, (p ∉ dom (cmd_store h)) ∧
       new_cmd c h = Some (p, with_cmd_store (<[p := c]> (cmd_store h)) h).
Proof. exists (fresh (dom (cmd_store h))). split; [apply is_fresh | done]. Qed.

Lemma new_old_run c h :
  ∃ p, (p ∉ dom (old_store h)) ∧
       new_old c h = Some (p, with_old_store (<[p := c]> (old_store h)) h).
Proof. exists (fresh (dom (old_store h))). split; [apply is_fresh | done]. Qed.

Lemma make_cmd_map_run kvs h :
  ∃ i, (i ∉ dom (cmd_maps h)) ∧
       make_cmd_map kvs h
       = Some (Some i, with_cmd_maps (<[i := list_to_map kvs]> (cmd_maps h)) h).
Proof. exists (fresh (dom (cmd_maps h))). split; [apply is_fresh | done]. Qed.

Lemma make_old_map_run kvs h :
  ∃ i, (i ∉ dom (old_maps h)) ∧
       make_old_map kvs h
       = Some (Some i, with_old_maps (<[i := list_to_map kvs]> (old_maps h)) h).
Proof. exists (fresh (dom (old_maps h))). split; [apply is_fresh | done]. Qed.

Lemma load_cmd_run p c h :
  cmd_store h !! p = Some c → load_cmd p h = Some (c, h).
Proof. intros Hp. unfold load_cmd. by rewrite Hp. Qed.

Lemma store_cmd_run p c c' h :
  cmd_store h !! p = Some c →
  store_cmd p c' h = Some (tt, with_cmd_store (<[p := c']> (cmd_store h)) h).
Proof. intros Hp. unfold store_cmd. by rewrite Hp. Qed.

Lemma load_old_run p c h :
  old_store h !! p = Some c → load_old p h = Some (c, h).
Proof. intros Hp. unfold load_old. by rewrite Hp. Qed.

Lemma store_old_run p c c' h :
  old_store h !! p = Some c →
  store_old p c' h = Some (tt, with_old_store (<[p := c']> (old_store h)) h).
Proof. intros Hp. unfold store_old. by rewrite Hp. Qed.

Lemma not_elem_of_dom_insert {V} (s : gmap positive V) (p q : positive) (x : V) :
  p ∉ dom (<[q := x]> s) → p ≠ q ∧ p ∉ dom s.
Proof. rewrite dom_insert_L. set_solver. Qed.
Lemma bind_assoc {A B C} (m : M A) (k : A → M B) (k' : B → M C) h :
  bind (bind m k) k' h = bind m (λ a, bind (k a) k') h.
Proof. unfold bind. destruct (m h) as [[a h']|]; done. Qed.
Lemma bind_ret {A B} (a : A) (k : A → M B) h : bind (ret a) k h = k a h.
Proof. done. Qed.

Ltac heap_simpl :=
  unfold with_cmd_store, with_old_store, with_cmd_maps, with_old_maps in *;
  cbn [cmd_store old_store cmd_maps old_maps] in *.

Ltac step_with lem m p H :=
  rewrite ?bind_assoc;
  lazymatch goal with
  | |- context [bind m ?k ?h] =>
      let R := fresh "R" in
      destruct (lem h) as (p & H & R);
      rewrite (bind_run m k h _ _ R); clear R; heap_simpl
  end.

Ltac step_new_cmd p H :=
  rewrite ?bind_assoc;
  lazymatch goal with
  | |- context [bind (new_cmd ?c) _ _] => step_with (new_cmd_run c) (new_cmd c) p H
  end.
Ltac step_new_old p H :=
  rewrite ?bind_assoc;
  lazymatch goal with
  | |- context [bind (new_old ?c) _ _] => step_with (new_old_run c) (new_old c) p H
  end.
Ltac step_cmd_map p H :=
  rewrite ?bind_assoc;
  lazymatch goal with
  | |- context [bind (make_cmd_map ?c) _ _] =>
      step_with (make_cmd_map_run c) (make_cmd_map c) p H
  end.
Ltac step_old_map p H :=
  rewrite ?bind_assoc;
  lazymatch goal with
  | |- context [bind (make_old_map ?c) _ _] =>
      step_with (make_old_map_run c) (make_old_map c) p H
  end.

Ltac split_fresh :=
  repeat match goal with
    | H : _ ∉ dom (<[_ := _]> _) |- _ =>
        apply not_elem_of_dom_insert in H; destruct H as [? H]
    end.



Lemma load_cmd_bind {B} p (k : cmds.Command → M B) h c :
  cmd_store h !! p = Some c → bind (load_cmd p) k h = k c h.
Proof. intros Hp. by apply bind_run, load_cmd_run. Qed.

Lemma store_cmd_bind {B} p c' (k : unit → M B) h c :
  cmd_store h !! p = Some c →
  bind (store_cmd p c') k h
  = k tt (with_cmd_store (<[p := c']> (cmd_store h)) h).
Proof. intros Hp. by eapply bind_run, store_cmd_run. Qed.

Lemma load_old_bind {B} p (k : oldcmds.Command → M B) h c :
  old_store h !! p = Some c → bind (load_old p) k h = k c h.
Proof. intros Hp. by apply bind_run, load_old_run. Qed.

Lemma store_old_bind {B} p c' (k : unit → M B) h c :
  old_store h !! p = Some c →
  bind (store_old p c') k h
  = k tt (with_old_store (<[p := c']> (old_store h)) h).
Proof. intros Hp. by eapply bind_run, store_old_run. Qed.

Ltac solve_lookup :=
  heap_simpl;
  repeat (rewrite lookup_insert_ne by congruence);
  first [apply lookup_insert_eq | eassumption | reflexivity].

Ltac step_load_cmd :=
  rewrite ?bind_assoc; erewrite load_cmd_bind by solve_lookup; heap_simpl.
Ltac step_store_cmd :=
  rewrite ?bind_assoc; erewrite store_cmd_bind by solve_lookup; heap_simpl.
Ltac step_load_old :=
  rewrite ?bind_assoc; erewrite load_old_bind by solve_lookup; heap_simpl.
Ltac step_store_old :=
  rewrite ?bind_assoc; erewrite store_old_bind by solve_lookup; heap_simpl.

Ltac solve_NoDup :=
  repeat (apply NoDup_cons_2;
          [rewrite ?not_elem_of_cons; repeat split;
           first [congruence | apply not_elem_of_nil] |]);
  apply NoDup_nil_2.

Ltac solve_fresh_list :=
  let p := fresh "p" in
  let Hp := fresh "Hp" in
  intros p Hp;
  repeat (apply elem_of_cons in Hp as [-> | Hp]; [assumption |]);
  by apply elem_of_nil in Hp.

Ltac solve_frame :=
  let p := fresh "p" in
  let Hp := fresh "Hp" in
  intros p Hp; heap_simpl;
  repeat (rewrite lookup_insert_ne by (intros ?; subst; done)); reflexivity.

(** ** Package initialisation returns, and what it leaves *)

Lemma startup_started E h0 :
  env_wf E h0 → ∃ v a h, startup E h0 = Some (v, h) ∧ started E h0 v a h.
Proof.
  intros [Hm Hl Hr]. destruct h0 as [cs os cm om]. heap_simpl.
  destruct (proj1 (elem_of_dom os (legacy E RefsCmd)) (Hl RefsCmd)) as [refs Hrefs].
  unfold startup, init, ProcessHelp, assign_Subcommands, assign_OldSubcommands,
    assign_old_Subcommands.
  unfold package_vars, CommandsCmd, ExternalBinary, new_cmd_namespace, new_old_namespace.
  cbn [Root RootRO RefsROCmd rootSubcommands rootOldSubcommands rootROSubcommands
       rootROOldSubcommands].
  step_new_cmd pRoot F1.
  step_new_cmd pCDC F2.
  step_cmd_map tRoot F3.
  step_new_old pUpd F4.
  step_old_map tOld F5.
  step_new_cmd pRO F6.
  step_new_cmd pCDRO F7.
  step_new_old pRefsRO F8.
  step_cmd_map tBlock F9.
  step_new_cmd pBlock F10.
  step_cmd_map tRO F11.
  step_old_map tName F12. step_new_old pName F13.
  step_old_map tObject F14. step_new_old pObject F15.
  step_old_map tDag F16. step_new_old pDag F17.
  step_old_map tROOld F18.
  split_fresh.
  assert (Hfr : ∀ p, p ∉ dom os → legacy E RefsCmd ≠ p).
  { intros p Hp Heq. subst p. apply Hp, Hl. }
  pose proof (Hfr _ F4). pose proof (Hfr _ F8). pose proof (Hfr _ F13).
  pose proof (Hfr _ F15). pose proof (Hfr _ F17). clear Hfr.
  rewrite ?bind_assoc, bind_ret.
  cbn [Root RootRO RefsROCmd rootSubcommands rootOldSubcommands rootROSubcommands
       rootROOldSubcommands].
  step_load_cmd. step_store_cmd.
  step_load_cmd. step_store_cmd.
  step_load_old. step_store_old.
  step_old_map tRefs F19. split_fresh.
  step_load_old. step_store_old.
  step_load_cmd. step_store_cmd.
  step_load_cmd. step_store_cmd.
  step_load_cmd. step_store_cmd.
  step_load_cmd. unfold bind. erewrite store_cmd_run by solve_lookup. heap_simpl.
  eexists _,
    {| update := pUpd; blockRO := pBlock; nameRO := pName; objectRO := pObject;
       dagRO := pDag; t_root := tRoot; t_rootOld := tOld; t_rootRO := tRO;
       t_rootROOld := tROOld; t_block := tBlock; t_name := tName;
       t_object := tObject; t_dag := tDag; t_refsRO := tRefs |}, _.
  split; [reflexivity |].
  constructor; cbn [Root RootRO RefsROCmd CommandsDaemonCmd CommandsDaemonROCmd
       rootSubcommands rootOldSubcommands rootROSubcommands rootROOldSubcommands
       update blockRO nameRO objectRO dagRO t_root t_rootOld t_rootRO t_rootROOld
       t_block t_name t_object t_dag t_refsRO]; heap_simpl.
  all: try reflexivity.
  all: try solve_NoDup.
  all: try solve_fresh_list.
  all: try solve_frame.
  all: try solve_lookup.
  exists refs. split; [assumption | solve_lookup].
Qed.

Lemma started_children_Root E h0 v a h :
  started E h0 v a h →
  children h (Root v)
  = Some (list_to_map (rootSubcommands_lit E (CommandsDaemonCmd v)),
          list_to_map (rootOldSubcommands_lit E (update a))).
Proof.
  intros St. unfold children.
  rewrite (st_Root _ _ _ _ _ St). cbn [root_final cmds.Subcommands cmds.OldSubcommands].
  rewrite (st_rootSubcommands _ _ _ _ _ St), (st_rootOldSubcommands _ _ _ _ _ St).
  cbn [map_contents].
  by rewrite (st_t_root _ _ _ _ _ St), (st_t_rootOld _ _ _ _ _ St).
Qed.

Lemma started_children_RootRO E h0 v a h :
  started E h0 v a h →
  children h (RootRO v)
  = Some (list_to_map
            (rootROSubcommands_lit E (CommandsDaemonROCmd v) (blockRO a)),
          list_to_map
            (rootROOldSubcommands_lit E (nameRO a) (objectRO a) (dagRO a)
               (RefsROCmd v))).
Proof.
  intros St. unfold children.
  rewrite (st_RootRO _ _ _ _ _ St). cbn [root_final cmds.Subcommands cmds.OldSubcommands].
  rewrite (st_rootROSubcommands _ _ _ _ _ St), (st_rootROOldSubcommands _ _ _ _ _ St).
  cbn [map_contents].
  by rewrite (st_t_rootRO _ _ _ _ _ St), (st_t_rootROOld _ _ _ _ _ St).
Qed.

(** ** Deciding well-formedness *)

Lemma mapref_liveb_true s m : mapref_liveb s m = true → mapref_live s m.
Proof. destruct m as [i|]; [apply bool_decide_eq_true | done]. Qed.

Lemma all_ModernVar_complete x : x ∈ all_ModernVar.
Proof. destruct x; unfold all_ModernVar; set_solver. Qed.

Lemma all_LegacyVar_complete x : In x all_LegacyVar.
Proof. destruct x; cbv; tauto. Qed.

Lemma env_wfb_true E h : env_wfb E h = true → env_wf E h.
Proof.
  unfold env_wfb. rewrite !andb_true_iff, !forallb_forall.
  intros [[Hm Hl] Hr]. split.
  - intros x. eapply bool_decide_eq_true, Hm, list_elem_of_In, all_ModernVar_complete.
  - intros x. eapply bool_decide_eq_true, Hl, all_LegacyVar_complete.
  - intros c Hc. rewrite Hc in Hr. by apply mapref_liveb_true.
Qed.

Lemma sample_wf : env_wf sample_env sample_heap.
Proof. apply env_wfb_true. vm_compute. reflexivity. Qed.

(** ** The restricted tree against the full tree *)

Lemma fresh_ne {V} (s : gmap positive V) p q : p ∉ dom s → q ∈ dom s → p ≠ q.
Proof. intros Hp Hq ->. by apply Hp. Qed.

Lemma list_to_map_assoc (l : list (string * positive)) (k : string) :
  (list_to_map l : gmap string positive) !! k = assoc k l.
Proof.
  induction l as [| [k' p] l IH]; [done |].
  cbn [list_to_map foldr assoc uncurry]. destruct (String.eqb_spec k k') as [-> | Hne].
  - apply lookup_insert_eq.
  - rewrite lookup_insert_ne by done. exact IH.
Qed.

(** Membership in a list written out. *)
Ltac in_list := repeat first [apply list_elem_of_here | apply list_elem_of_further].

(** A proposition that a computation decides. *)
Ltac by_decision := apply (bool_decide_unpack _); vm_compute; exact I.

(** C1, as the specification words it, fails: under the name "block" the
    restricted root holds a namespace node of its own, not [BlockCmd]. *)
Lemma leaves_reference_equal_fails :
  ¬ leaves_reference_equal sample_env sample_heap.
Proof.
  intros Hclaim.
  destruct (startup_started _ _ sample_wf) as (v & a & h & Hrun & St).
  destruct (Hclaim v h _ _ _ _ Hrun (started_children_RootRO _ _ _ _ _ St)
              (started_children_Root _ _ _ _ _ St)) as [Hs _].
  specialize (Hs "block" (blockRO a)).
  rewrite !list_to_map_assoc in Hs. specialize (Hs eq_refl).
  injection Hs as Hs.
  change (modern sample_env BlockCmd = blockRO a) in Hs.
  apply (st_fresh_cmds _ _ _ _ _ St (blockRO a)).
  - in_list.
  - rewrite <- Hs. apply (wf_modern _ _ sample_wf).
Qed.

(** C1 (amended): every top-level name of the restricted tree is a name of
    the full tree, in the map of the same representation.  Under "cat",
    "get", "dns", "ls", "resolve" and "version" the two trees hold the very
    same command; under "commands", "block", "name", "object", "dag" and
    "refs" the restricted tree holds a node of its own, at a different
    address from the full tree's. *)
Theorem restricted_names_in_full_tree E h0 :
  env_wf E h0 →
  ∃ v h s o s' o',
    startup E h0 = Some (v, h) ∧
    children h (RootRO v) = Some (s, o) ∧
    children h (Root v) = Some (s', o') ∧
    dom s = {[ "commands"; "cat"; "block"; "get" ]} ∧
    dom o = {[ "dns"; "ls"; "name"; "object"; "dag"; "refs"; "resolve"; "version" ]} ∧
    dom s ⊆ dom s' ∧
    dom o ⊆ dom o' ∧
    (∀ name, name ∈ ["cat"; "get"] →
       is_Some (s !! name) ∧ s !! name = s' !! name) ∧
    (∀ name, name ∈ ["dns"; "ls"; "resolve"; "version"] →
       is_Some (o !! name) ∧ o !! name = o' !! name) ∧
    (∀ name, name ∈ ["commands"; "block"] →
       ∃ p p', s !! name = Some p ∧ s' !! name = Some p' ∧ p ≠ p') ∧
    (∀ name, name ∈ ["name"; "object"; "dag"; "refs"] →
       ∃ p p', o !! name = Some p ∧ o' !! name = Some p' ∧ p ≠ p').
Proof.
  intros Hwf.
  destruct (startup_started _ _ Hwf) as (v & a & h & Hrun & St).
  eexists v, h, _, _, _, _.
  split; [exact Hrun |].
  split; [exact (started_children_RootRO _ _ _ _ _ St) |].
  split; [exact (started_children_Root _ _ _ _ _ St) |].
  pose proof (st_fresh_cmds _ _ _ _ _ St) as Fc.
  pose proof (st_fresh_olds _ _ _ _ _ St) as Fo.
  pose proof (st_new_cmds _ _ _ _ _ St) as Nc.
  split; [by_decision |]. split; [by_decision |].
  split; [by_decision |]. split; [by_decision |].
  split; [| split; [| split]]; intros name Hname;
    repeat (apply elem_of_cons in Hname as [-> | Hname]);
    try (exfalso; exact (proj1 (elem_of_nil _) Hname));
    rewrite !list_to_map_assoc; cbn [assoc String.eqb Ascii.eqb Bool.eqb
      rootROSubcommands_lit rootSubcommands_lit rootROOldSubcommands_lit
      rootOldSubcommands_lit].
  - split; [eexists; reflexivity | reflexivity].
  - split; [eexists; reflexivity | reflexivity].
  - split; [eexists; reflexivity | reflexivity].
  - split; [eexists; reflexivity | reflexivity].
  - split; [eexists; reflexivity | reflexivity].
  - split; [eexists; reflexivity | reflexivity].
  - eexists _, _. split; [reflexivity |]. split; [reflexivity |].
    apply NoDup_cons in Nc as [_ Nc]. apply NoDup_cons in Nc as [Nc _].
    intros Heq. apply Nc. rewrite <- Heq. in_list.
  - eexists _, _. split; [reflexivity |]. split; [reflexivity |].
    eapply fresh_ne; [apply Fc; in_list | apply (wf_modern _ _ Hwf)].
  - eexists _, _. split; [reflexivity |]. split; [reflexivity |].
    eapply fresh_ne; [apply Fo; in_list | apply (wf_legacy _ _ Hwf)].
  - eexists _, _. split; [reflexivity |]. split; [reflexivity |].
    eapply fresh_ne; [apply Fo; in_list | apply (wf_legacy _ _ Hwf)].
  - eexists _, _. split; [reflexivity |]. split; [reflexivity |].
    eapply fresh_ne; [apply Fo; in_list | apply (wf_legacy _ _ Hwf)].
  - eexists _, _. split; [reflexivity |]. split; [reflexivity |].
    eapply fresh_ne; [apply Fo; in_list | apply (wf_legacy _ _ Hwf)].
Qed.

Lemma restricted_names_in_full_tree_witness :
  env_wf sample_env sample_heap ∧
  ∃ v h s o s' o',
    startup sample_env sample_heap = Some (v, h) ∧
    children h (RootRO v) = Some (s, o) ∧
    children h (Root v) = Some (s', o') ∧
    dom s ⊆ dom s' ∧ dom o ⊆ dom o'.
Proof.
  assert (Hwf : env_wf sample_env sample_heap)
    by (apply env_wfb_true; vm_compute; reflexivity).
  split; [exact Hwf |].
  destruct (restricted_names_in_full_tree sample_env sample_heap Hwf)
    as (v & h & s & o & s' & o' & Hrun & Hro & Hfull & _ & _ & Hs & Ho & _).
  exists v, h, s, o, s', o'. repeat split; assumption.
Defined.

(** ** The text marshaler *)

(** C2: when the unwrapped payload is a [*MessageOutput] whose message is
    "pong", the marshaler returns a reader whose content is exactly "pong"
    and no error; when the payload has any other dynamic type, it returns
    no reader and a type error that names the expected type
    [*MessageOutput] and the actual type, so no empty text stands in for the
    mismatch. *)
Theorem MessageTextMarshaler_pong_or_mismatch
    (unwrapOutput : iface → iface * option error) (res : Response) (v : iface) :
  unwrapOutput (Output res) = (v, None) →
  (v = MessageOutputPtr (Some {| Message := "pong" |}) →
     ∃ r, MessageTextMarshaler unwrapOutput res = Some (Some r, None) ∧
          ReadAll r = "pong") ∧
  (typeOf v ≠ T_ptr_MessageOutput →
     MessageTextMarshaler unwrapOutput res
     = Some (None, Some (TypeErr T_ptr_MessageOutput (typeOf v))) ∧
     ∀ r e, MessageTextMarshaler unwrapOutput res ≠ Some (Some r, e)).
Proof.
  intros Hun. unfold MessageTextMarshaler. rewrite Hun. split.
  - intros ->. cbn. eexists. split; reflexivity.
  - intros Hty. destruct v; cbn; try (split; [reflexivity | discriminate]).
    exfalso. apply Hty. reflexivity.
Qed.

Lemma MessageTextMarshaler_pong_or_mismatch_witness :
  (∃ r, MessageTextMarshaler unwrap_plain
          {| Output := MessageOutputPtr (Some {| Message := "pong" |}) |}
        = Some (Some r, None) ∧ ReadAll r = "pong") ∧
  MessageTextMarshaler unwrap_plain {| Output := StringVal "pong" |}
  = Some (None, Some (TypeErr T_ptr_MessageOutput T_string)).
Proof.
  split.
  - apply (MessageTextMarshaler_pong_or_mismatch unwrap_plain
             {| Output := MessageOutputPtr (Some {| Message := "pong" |}) |}
             (MessageOutputPtr (Some {| Message := "pong" |})));
      reflexivity.
  - apply (MessageTextMarshaler_pong_or_mismatch unwrap_plain
             {| Output := StringVal "pong" |} (StringVal "pong"));
      [reflexivity | discriminate].
Defined.

(** ** Independence of the two roots' children maps *)

(** Mutating a children map of one root leaves the children of another root
    alone, provided the two roots refer to different tables. *)
Lemma mutate_other_root h root other f mu cr co i j i' j' t u t' u' :
  cmd_store h !! root = Some cr →
  cmd_store h !! other = Some co →
  cmds.Subcommands cr = Some i → cmds.OldSubcommands cr = Some j →
  cmds.Subcommands co = Some i' → cmds.OldSubcommands co = Some j' →
  cmd_maps h !! i = Some t → old_maps h !! j = Some u →
  cmd_maps h !! i' = Some t' → old_maps h !! j' = Some u' →
  i ≠ i' → j ≠ j' →
  ∃ h', mutate root f mu h = Some (tt, h') ∧
        children h root = Some (t, u) ∧
        children h' root = Some (mutate_children f mu (t, u)) ∧
        children h other = Some (t', u') ∧
        children h' other = Some (t', u').
Proof.
  intros Hr Ho Hi Hj Hi' Hj' Ht Hu Ht' Hu' Hne Hne'.
  assert (Hc : children h root = Some (t, u)).
  { unfold children. rewrite Hr, Hi, Hj. cbn [map_contents]. by rewrite Ht, Hu. }
  assert (Hc' : children h other = Some (t', u')).
  { unfold children. rewrite Ho, Hi', Hj'. cbn [map_contents]. by rewrite Ht', Hu'. }
  unfold mutate. rewrite (load_cmd_bind _ _ _ _ Hr).
  destruct f, mu as [k p | k]; rewrite ?Hi, ?Hj;
    unfold cmd_map_assign, cmd_map_delete, old_map_assign, old_map_delete;
    rewrite ?Ht, ?Hu; eexists; (split; [reflexivity |]);
    (split; [exact Hc |]); (split; [| split; [exact Hc' |]]);
    unfold children, with_cmd_maps, with_old_maps;
    cbn [cmd_store old_store cmd_maps old_maps];
    rewrite ?Hr, ?Ho, ?Hi, ?Hj, ?Hi', ?Hj'; cbn [map_contents];
    rewrite ?lookup_insert_eq, ?(lookup_insert_ne _ _ _ _ Hne),
      ?(lookup_insert_ne _ _ _ _ Hne'), ?Ht, ?Hu, ?Ht', ?Hu'; reflexivity.
Qed.

(** C3: once [init] has run, [Root] and [RootRO] refer to different tables,
    for the modern and for the legacy children alike.  Inserting or deleting
    a key in a children map of one root changes that map and leaves both
    children maps of the other root as they were, in both directions. *)
Theorem children_maps_independent E h0 :
  env_wf E h0 →
  ∃ v h full ro,
    startup E h0 = Some (v, h) ∧
    cmd_store h !! Root v = Some full ∧
    cmd_store h !! RootRO v = Some ro ∧
    is_Some (cmds.Subcommands full) ∧ is_Some (cmds.OldSubcommands full) ∧
    cmds.Subcommands full ≠ cmds.Subcommands ro ∧
    cmds.OldSubcommands full ≠ cmds.OldSubcommands ro ∧
    ∀ f mu,
      (∃ h' c c',
         mutate (Root v) f mu h = Some (tt, h') ∧
         children h (Root v) = Some c ∧
         children h' (Root v) = Some (mutate_children f mu c) ∧
         children h (RootRO v) = Some c' ∧
         children h' (RootRO v) = Some c') ∧
      (∃ h' c c',
         mutate (RootRO v) f mu h = Some (tt, h') ∧
         children h (RootRO v) = Some c ∧
         children h' (RootRO v) = Some (mutate_children f mu c) ∧
         children h (Root v) = Some c' ∧
         children h' (Root v) = Some c').
Proof.
  intros Hwf.
  destruct (startup_started _ _ Hwf) as (v & a & h & Hrun & St).
  pose proof (st_new_cmd_maps _ _ _ _ _ St) as Nm.
  pose proof (st_new_old_maps _ _ _ _ _ St) as No.
  assert (Hne : t_root a ≠ t_rootRO a).
  { apply NoDup_cons in Nm as [Nm _]. intros Heq. apply Nm. rewrite Heq. in_list. }
  assert (Hne' : t_rootOld a ≠ t_rootROOld a).
  { apply NoDup_cons in No as [No _]. intros Heq. apply No. rewrite Heq. in_list. }
  eexists v, h, _, _.
  split; [exact Hrun |].
  split; [exact (st_Root _ _ _ _ _ St) |].
  split; [exact (st_RootRO _ _ _ _ _ St) |].
  cbn [root_final cmds.Subcommands cmds.OldSubcommands].
  rewrite (st_rootSubcommands _ _ _ _ _ St), (st_rootOldSubcommands _ _ _ _ _ St),
    (st_rootROSubcommands _ _ _ _ _ St), (st_rootROOldSubcommands _ _ _ _ _ St).
  split; [eexists; reflexivity |]. split; [eexists; reflexivity |].
  split; [congruence |]. split; [congruence |].
  intros f mu. split.
  - destruct (mutate_other_root h (Root v) (RootRO v) f mu _ _ _ _ _ _ _ _ _ _
                (st_Root _ _ _ _ _ St) (st_RootRO _ _ _ _ _ St)
                (st_rootSubcommands _ _ _ _ _ St) (st_rootOldSubcommands _ _ _ _ _ St)
                (st_rootROSubcommands _ _ _ _ _ St) (st_rootROOldSubcommands _ _ _ _ _ St)
                (st_t_root _ _ _ _ _ St) (st_t_rootOld _ _ _ _ _ St)
                (st_t_rootRO _ _ _ _ _ St) (st_t_rootROOld _ _ _ _ _ St) Hne Hne')
      as (h' & H1 & H2 & H3 & H4 & H5).
    eexists h', _, _. repeat split; eassumption.
  - destruct (mutate_other_root h (RootRO v) (Root v) f mu _ _ _ _ _ _ _ _ _ _
                (st_RootRO _ _ _ _ _ St) (st_Root _ _ _ _ _ St)
                (st_rootROSubcommands _ _ _ _ _ St) (st_rootROOldSubcommands _ _ _ _ _ St)
                (st_rootSubcommands _ _ _ _ _ St) (st_rootOldSubcommands _ _ _ _ _ St)
                (st_t_rootRO _ _ _ _ _ St) (st_t_rootROOld _ _ _ _ _ St)
                (st_t_root _ _ _ _ _ St) (st_t_rootOld _ _ _ _ _ St)
                (not_eq_sym Hne) (not_eq_sym Hne'))
      as (h' & H1 & H2 & H3 & H4 & H5).
    eexists h', _, _. repeat split; eassumption.
Qed.

Lemma children_maps_independent_witness :
  env_wf sample_env sample_heap ∧
  ∃ v h h' c,
    startup sample_env sample_heap = Some (v, h) ∧
    mutate (Root v) TheSubcommands (Insert "init" 1%positive) h = Some (tt, h') ∧
    children h (RootRO v) = Some c ∧
    children h' (RootRO v) = Some c.
Proof.
  assert (Hwf : env_wf sample_env sample_heap)
    by (apply env_wfb_true; vm_compute; reflexivity).
  split; [exact Hwf |].
  destruct (children_maps_independent sample_env sample_heap Hwf)
    as (v & h & full & ro & Hrun & _ & _ & _ & _ & _ & _ & Hmut).
  destruct (Hmut TheSubcommands (Insert "init" 1%positive))
    as [(h' & c & c' & Hm & _ & _ & Hc & Hc') _].
  exists v, h, h', c'. repeat split; assumption.
Defined.

(** ** The read-only refs command *)

(** The initialisers of the package variables only allocate: whatever the
    heap held before is still there, unchanged, when [init] starts. *)
Lemma package_vars_frame E h0 :
  ∃ v h1,
    package_vars E h0 = Some (v, h1) ∧
    (∀ p, p ∈ dom (cmd_store h0) → cmd_store h1 !! p = cmd_store h0 !! p) ∧
    (∀ p, p ∈ dom (old_store h0) → old_store h1 !! p = old_store h0 !! p) ∧
    (∀ i, i ∈ dom (cmd_maps h0) → cmd_maps h1 !! i = cmd_maps h0 !! i) ∧
    (∀ i, i ∈ dom (old_maps h0) → old_maps h1 !! i = old_maps h0 !! i).
Proof.
  destruct h0 as [cs os cm om].
  unfold package_vars, CommandsCmd, ExternalBinary, new_cmd_namespace,
    new_old_namespace.
  step_new_cmd pRoot F1.
  step_new_cmd pCDC F2.
  step_cmd_map tRoot F3.
  step_new_old pUpd F4.
  step_old_map tOld F5.
  step_new_cmd pRO F6.
  step_new_cmd pCDRO F7.
  step_new_old pRefsRO F8.
  step_cmd_map tBlock F9.
  step_new_cmd pBlock F10.
  step_cmd_map tRO F11.
  step_old_map tName F12. step_new_old pName F13.
  step_old_map tObject F14. step_new_old pObject F15.
  step_old_map tDag F16. step_new_old pDag F17.
  step_old_map tROOld F18.
  split_fresh.
  eexists _, _. split; [reflexivity |].
  split; [| split; [| split]]; solve_frame.
Qed.

Lemma bind_Some {A B} (m : M A) (k : A → M B) h b h' :
  bind m k h = Some (b, h') ↔ ∃ a h1, m h = Some (a, h1) ∧ k a h1 = Some (b, h').
Proof.
  unfold bind. destruct (m h) as [[a h1] |]; split.
  - intros Hk. exists a, h1. split; [reflexivity | exact Hk].
  - intros (a' & h1' & Heq & Hk). injection Heq as -> ->. exact Hk.
  - discriminate.
  - intros (a' & h1' & Heq & Hk). discriminate.
Qed.

Lemma startup_split E h0 v h :
  startup E h0 = Some (v, h) ↔
  ∃ h1, package_vars E h0 = Some (v, h1) ∧ init E v h1 = Some (tt, h).
Proof.
  unfold startup. rewrite bind_Some. split.
  - intros (v1 & h1 & Hp & Hk). apply bind_Some in Hk as ([] & h2 & Hi & Hret).
    unfold ret in Hret. injection Hret as -> ->. exists h1. split; assumption.
  - intros (h1 & Hp & Hi). exists v, h1. split; [exact Hp |].
    apply bind_Some. exists tt, h. split; [exact Hi | reflexivity].
Qed.

(** C4: after [init], the name "refs" of the restricted tree leads to
    [RefsROCmd], whose children map is an empty table, while its help text,
    handler, options and remaining fields are those of [RefsCmd], the
    command the full tree holds under "refs". *)
Theorem RefsROCmd_pruned E h0 :
  env_wf E h0 →
  ∃ v h s o s' o' refsRO refs t,
    startup E h0 = Some (v, h) ∧
    children h (RootRO v) = Some (s, o) ∧
    children h (Root v) = Some (s', o') ∧
    o !! "refs" = Some (RefsROCmd v) ∧
    o' !! "refs" = Some (legacy E RefsCmd) ∧
    old_store h !! RefsROCmd v = Some refsRO ∧
    old_store h !! legacy E RefsCmd = Some refs ∧
    oldcmds.Subcommands refsRO = Some t ∧
    old_maps h !! t = Some ∅ ∧
    oldcmds.Helptext refsRO = oldcmds.Helptext refs ∧
    oldcmds.Run refsRO = oldcmds.Run refs ∧
    oldcmds.Options refsRO = oldcmds.Options refs ∧
    oldcmds.Rest refsRO = oldcmds.Rest refs.
Proof.
  intros Hwf.
  destruct (startup_started _ _ Hwf) as (v & a & h & Hrun & St).
  destruct (st_RefsROCmd _ _ _ _ _ St) as (refs & Hrefs & HrefsRO).
  eexists v, h, _, _, _, _, _, refs, (t_refsRO a).
  split; [exact Hrun |].
  split; [exact (started_children_RootRO _ _ _ _ _ St) |].
  split; [exact (started_children_Root _ _ _ _ _ St) |].
  split; [rewrite list_to_map_assoc; reflexivity |].
  split; [rewrite list_to_map_assoc; reflexivity |].
  split; [exact HrefsRO |].
  split.
  { rewrite (st_old_frame _ _ _ _ _ St); [exact Hrefs | apply (wf_legacy _ _ Hwf)]. }
  split; [reflexivity |].
  split; [exact (st_t_refsRO _ _ _ _ _ St) |].
  repeat split.
Qed.

Lemma RefsROCmd_pruned_witness :
  env_wf sample_env sample_heap ∧
  ∃ v h refsRO t,
    startup sample_env sample_heap = Some (v, h) ∧
    old_store h !! RefsROCmd v = Some refsRO ∧
    oldcmds.Subcommands refsRO = Some t ∧
    old_maps h !! t = Some ∅.
Proof.
  assert (Hwf : env_wf sample_env sample_heap)
    by (apply env_wfb_true; vm_compute; reflexivity).
  split; [exact Hwf |].
  destruct (RefsROCmd_pruned sample_env sample_heap Hwf)
    as (v & h & s & o & s' & o' & refsRO & refs & t & Hrun & _ & _ & _ & _
        & Hro & _ & Ht & Hempty & _).
  exists v, h, refsRO, t. repeat split; assumption.
Defined.

(** C10: [init] leaves [RefsCmd] as it found it.  The struct is the same
    before and after, its [Subcommands] field refers to the table it
    referred to before, with the same contents; the empty table goes to
    [RefsROCmd] alone. *)
Theorem init_leaves_RefsCmd E h0 :
  env_wf E h0 →
  ∃ v h1 h refs refsRO,
    package_vars E h0 = Some (v, h1) ∧
    init E v h1 = Some (tt, h) ∧
    old_store h1 !! legacy E RefsCmd = Some refs ∧
    old_store h !! legacy E RefsCmd = Some refs ∧
    is_Some (map_contents (old_maps h1) (oldcmds.Subcommands refs)) ∧
    map_contents (old_maps h) (oldcmds.Subcommands refs)
    = map_contents (old_maps h1) (oldcmds.Subcommands refs) ∧
    old_store h !! RefsROCmd v = Some refsRO ∧
    oldcmds.Subcommands refsRO ≠ oldcmds.Subcommands refs.
Proof.
  intros Hwf.
  destruct (startup_started _ _ Hwf) as (v & a & h & Hrun & St).
  apply startup_split in Hrun as (h1 & Hp & Hi).
  destruct (package_vars_frame E h0) as (v' & h1' & Hp' & _ & Fo & _ & Fm).
  rewrite Hp in Hp'. injection Hp' as <- <-.
  destruct (st_RefsROCmd _ _ _ _ _ St) as (refs & Hrefs & HrefsRO).
  pose proof (wf_legacy _ _ Hwf RefsCmd) as Hdom.
  pose proof (wf_refs _ _ Hwf _ Hrefs) as Hlive.
  eexists v, h1, h, refs, _.
  split; [exact Hp |]. split; [exact Hi |].
  split; [by rewrite Fo |].
  split; [by rewrite (st_old_frame _ _ _ _ _ St) |].
  destruct (oldcmds.Subcommands refs) as [i |] eqn:Hsub; cbn [map_contents mapref_live] in *.
  - split; [rewrite (Fm _ Hlive); by apply elem_of_dom |].
    split; [by rewrite (Fm _ Hlive), (st_old_maps_frame _ _ _ _ _ St _ Hlive) |].
    split; [exact HrefsRO |].
    cbn [oldcmds.set_Subcommands oldcmds.Subcommands]. intros [= Heq].
    apply (st_fresh_old_maps _ _ _ _ _ St (t_refsRO a)); [in_list |].
    by rewrite Heq.
  - split; [by eexists |]. split; [reflexivity |].
    split; [exact HrefsRO |]. discriminate.
Qed.

Lemma init_leaves_RefsCmd_witness :
  env_wf sample_env sample_heap ∧
  ∃ v h1 h refs,
    package_vars sample_env sample_heap = Some (v, h1) ∧
    init sample_env v h1 = Some (tt, h) ∧
    old_store h1 !! legacy sample_env RefsCmd = Some refs ∧
    old_store h !! legacy sample_env RefsCmd = Some refs.
Proof.
  assert (Hwf : env_wf sample_env sample_heap)
    by (apply env_wfb_true; vm_compute; reflexivity).
  split; [exact Hwf |].
  destruct (init_leaves_RefsCmd sample_env sample_heap Hwf)
    as (v & h1 & h & refs & refsRO & Hp & Hi & H1 & H2 & _).
  exists v, h1, h, refs. repeat split; assumption.
Defined.

(** ** The global options of the root *)

(** C5, as the specification words it, fails: the [api] option of the root
    carries no default value; only its description mentions the local
    endpoint. *)
Lemma root_api_option_has_no_default :
  ¬ (∀ v h c,
       startup sample_env sample_heap = Some (v, h) →
       cmd_store h !! Root v = Some c →
       six_options_api_default (cmds.Options c)).
Proof.
  intros Hclaim.
  destruct (startup_started _ _ sample_wf) as (v & a & h & Hrun & St).
  specialize (Hclaim v h _ Hrun (st_Root _ _ _ _ _ St)).
  cbn [root_final cmds.Options] in Hclaim.
  destruct Hclaim as (config & debug & help & hopt & local & api & Heq & _ & _ & _ & _ & _ & Hapi).
  unfold RootOptions in Heq. injection Heq as <- <- <- <- <- <-.
  destruct Hapi as (_ & _ & _ & Hdefault). discriminate Hdefault.
Qed.

(** C5 (amended): the root command carries exactly six global options:
    config (string, alias c), debug (boolean, alias D, default false), help
    (boolean, default false), h (boolean, default false), local (boolean,
    alias L, default false) and api (string), which has no default value of
    its own; the description of api says that it defaults to
    /ip4/127.0.0.1/tcp/5001. *)
Theorem root_global_options E h0 :
  env_wf E h0 →
  ∃ v h c,
    startup E h0 = Some (v, h) ∧
    cmd_store h !! Root v = Some c ∧
    six_options (cmds.Options c).
Proof.
  intros Hwf.
  destruct (startup_started _ _ Hwf) as (v & a & h & Hrun & St).
  eexists v, h, _.
  split; [exact Hrun |]. split; [exact (st_Root _ _ _ _ _ St) |].
  cbn [root_final cmds.Options]. unfold six_options, RootOptions.
  eexists _, _, _, _, _, _. split; [reflexivity |].
  unfold option_is. repeat split.
Qed.

Lemma root_global_options_witness :
  env_wf sample_env sample_heap ∧
  ∃ v h c,
    startup sample_env sample_heap = Some (v, h) ∧
    cmd_store h !! Root v = Some c ∧
    six_options (cmds.Options c).
Proof.
  assert (Hwf : env_wf sample_env sample_heap)
    by (apply env_wfb_true; vm_compute; reflexivity).
  split; [exact Hwf |].
  exact (root_global_options sample_env sample_heap Hwf).
Defined.

(** ** The names of the full tree *)

(** C6, as the specification words it, fails: "daemon" is a key of neither
    children map of the full root. *)
Lemma cli_surface_registered_fails :
  ¬ cli_surface_registered sample_env sample_heap.
Proof.
  intros Hclaim.
  destruct (startup_started _ _ sample_wf) as (v & a & h & Hrun & St).
  specialize (Hclaim v h _ _ Hrun (started_children_Root _ _ _ _ _ St) "daemon").
  revert Hclaim. by_decision.
Qed.

(** C6 (amended): every name of the CLI surface other than "daemon" is a
    key of one of the two children maps of the full root; "daemon" is a key
    of neither. *)
Theorem cli_surface_but_daemon_registered E h0 :
  env_wf E h0 →
  ∃ v h s o,
    startup E h0 = Some (v, h) ∧
    children h (Root v) = Some (s, o) ∧
    (∀ name, name ∈ cli_surface → name ≠ "daemon" → name ∈ dom s ∪ dom o) ∧
    "daemon" ∉ dom s ∪ dom o.
Proof.
  intros Hwf.
  destruct (startup_started _ _ Hwf) as (v & a & h & Hrun & St).
  eexists v, h, _, _.
  split; [exact Hrun |]. split; [exact (started_children_Root _ _ _ _ _ St) |].
  split; [| by_decision].
  rewrite <- Forall_forall. by_decision.
Qed.

Lemma cli_surface_but_daemon_registered_witness :
  env_wf sample_env sample_heap ∧
  ∃ v h s o,
    startup sample_env sample_heap = Some (v, h) ∧
    children h (Root v) = Some (s, o) ∧
    "add" ∈ dom s ∪ dom o ∧
    "daemon" ∉ dom s ∪ dom o.
Proof.
  assert (Hwf : env_wf sample_env sample_heap)
    by (apply env_wfb_true; vm_compute; reflexivity).
  split; [exact Hwf |].
  destruct (cli_surface_but_daemon_registered sample_env sample_heap Hwf)
    as (v & h & s & o & Hrun & Hc & Hall & Hdaemon).
  exists v, h, s, o. repeat split; try assumption.
  apply Hall; [apply list_elem_of_here | discriminate].
Defined.

(** C7: under either root, no name is a key of both children maps, and no
    map literal of root.go writes a key twice. *)
Theorem child_names_unique E h0 :
  env_wf E h0 →
  ∃ v h a s o s' o',
    startup E h0 = Some (v, h) ∧
    children h (Root v) = Some (s', o') ∧
    children h (RootRO v) = Some (s, o) ∧
    (∀ name, name ∈ dom s' → name ∉ dom o') ∧
    (∀ name, name ∈ dom s → name ∉ dom o) ∧
    NoDup (rootSubcommands_lit E (CommandsDaemonCmd v)).*1 ∧
    NoDup (rootOldSubcommands_lit E (update a)).*1 ∧
    NoDup (rootROSubcommands_lit E (CommandsDaemonROCmd v) (blockRO a)).*1 ∧
    NoDup (rootROOldSubcommands_lit E (nameRO a) (objectRO a) (dagRO a)
             (RefsROCmd v)).*1.
Proof.
  intros Hwf.
  destruct (startup_started _ _ Hwf) as (v & a & h & Hrun & St).
  eexists v, h, a, _, _, _, _.
  split; [exact Hrun |].
  split; [exact (started_children_Root _ _ _ _ _ St) |].
  split; [exact (started_children_RootRO _ _ _ _ _ St) |].
  split; [unfold not; apply (proj1 (elem_of_disjoint _ _)); by_decision |].
  split; [unfold not; apply (proj1 (elem_of_disjoint _ _)); by_decision |].
  split; [by_decision |]. split; [by_decision |].
  split; by_decision.
Qed.

Lemma child_names_unique_witness :
  env_wf sample_env sample_heap ∧
  ∃ v h s o s' o',
    startup sample_env sample_heap = Some (v, h) ∧
    children h (Root v) = Some (s', o') ∧
    children h (RootRO v) = Some (s, o) ∧
    (∀ name, name ∈ dom s' → name ∉ dom o') ∧
    (∀ name, name ∈ dom s → name ∉ dom o).
Proof.
  assert (Hwf : env_wf sample_env sample_heap)
    by (apply env_wfb_true; vm_compute; reflexivity).
  split; [exact Hwf |].
  destruct (child_names_unique sample_env sample_heap Hwf)
    as (v & h & a & s & o & s' & o' & Hrun & Hfull & Hro & H1 & H2 & _).
  exists v, h, s, o, s', o'. repeat split; assumption.
Defined.



(** ** The commands command *)



(** ** Concrete runs on the sample environment *)

(** The addresses initialisation picks on the sample heap, whose commands
    occupy the addresses 1 to 7 (modern) and 1 to 36 (legacy). *)
Example sample_startup_vars :
  fst <$> startup sample_env sample_heap
  = Some {| Root := 8; CommandsDaemonCmd := 9;
            rootSubcommands := Some 1%positive;
            rootOldSubcommands := Some 2%positive;
            RootRO := 10; CommandsDaemonROCmd := 11; RefsROCmd := 38;
            rootROSubcommands := Some 3%positive;
            rootROOldSubcommands := Some 6%positive |}.
Proof. vm_compute. reflexivity. Qed.

Example sample_block :
  entries_under "block" <$> startup sample_env sample_heap
  = Some (Some (Some 12%positive, None), Some (Some 2%positive, None)).
Proof. vm_compute. reflexivity. Qed.

Example sample_commands :
  entries_under "commands" <$> startup sample_env sample_heap
  = Some (Some (Some 11%positive, None), Some (Some 9%positive, None)).
Proof. vm_compute. reflexivity. Qed.

Example sample_refs :
  entries_under "refs" <$> startup sample_env sample_heap
  = Some (Some (None, Some 38%positive), Some (None, Some 19%positive)).
Proof. vm_compute. reflexivity. Qed.

Example sample_cat :
  entries_under "cat" <$> startup sample_env sample_heap
  = Some (Some (Some 3%positive, None), Some (Some 3%positive, None)).
Proof. vm_compute. reflexivity. Qed.

Example sample_daemon :
  entries_under "daemon" <$> startup sample_env sample_heap
  = Some (Some (None, None), Some (None, None)).
Proof. vm_compute. reflexivity. Qed.

(** A typed nil pointer passes the type assertion; reading its message is a
    nil dereference. *)
Example MessageTextMarshaler_nil_pointer :
  MessageTextMarshaler unwrap_plain {| Output := MessageOutputPtr None |} = None.
Proof. reflexivity. Qed.

(** A message held by value is not a [*MessageOutput]. *)
Example MessageTextMarshaler_by_value :
  MessageTextMarshaler unwrap_plain
    {| Output := MessageOutputVal {| Message := "pong" |} |}
  = Some (None, Some (TypeErr T_ptr_MessageOutput T_MessageOutput)).
Proof. reflexivity. Qed.

(** An error of [unwrapOutput] is passed on as it is. *)
Example MessageTextMarshaler_unwrap_error :
  MessageTextMarshaler (λ _, (Nil, Some (OtherErr "closed"))) {| Output := Nil |}
  = Some (None, Some (OtherErr "closed")).
Proof. reflexivity. Qed.

(** * Further properties of root.go *)

(** ** The variable initialisers *)

Ltac run_package_vars :=
  unfold package_vars, CommandsCmd, ExternalBinary, new_cmd_namespace,
    new_old_namespace;
  step_new_cmd ident:(pRoot) ident:(F1);
  step_new_cmd ident:(pCDC) ident:(F2);
  step_cmd_map ident:(tRoot) ident:(F3);
  step_new_old ident:(pUpd) ident:(F4);
  step_old_map ident:(tOld) ident:(F5);
  step_new_cmd ident:(pRO) ident:(F6);
  step_new_cmd ident:(pCDRO) ident:(F7);
  step_new_old ident:(pRefsRO) ident:(F8);
  step_cmd_map ident:(tBlock) ident:(F9);
  step_new_cmd ident:(pBlock) ident:(F10);
  step_cmd_map ident:(tRO) ident:(F11);
  step_old_map ident:(tName) ident:(F12); step_new_old ident:(pName) ident:(F13);
  step_old_map ident:(tObject) ident:(F14); step_new_old ident:(pObject) ident:(F15);
  step_old_map ident:(tDag) ident:(F16); step_new_old ident:(pDag) ident:(F17);
  step_old_map ident:(tROOld) ident:(F18);
  split_fresh.

(** X1: The initialisers of the package variables never panic, whatever the heap
    holds.  When they are done, [Root] points to its literal, [RootRO] and
    [RefsROCmd] point to zero structs, neither root has children, and the
    four maps exist, filled, without being attached to a root. *)
Theorem package_vars_before_init E h0 :
  ∃ v h1 ts to tros troo,
    package_vars E h0 = Some (v, h1) ∧
    cmd_store h1 !! Root v = Some RootLit ∧
    cmd_store h1 !! RootRO v = Some cmds.zero ∧
    old_store h1 !! RefsROCmd v = Some oldcmds.zero ∧
    children h1 (Root v) = Some (∅, ∅) ∧
    children h1 (RootRO v) = Some (∅, ∅) ∧
    rootSubcommands v = Some ts ∧
    rootOldSubcommands v = Some to ∧
    rootROSubcommands v = Some tros ∧
    rootROOldSubcommands v = Some troo ∧
    dom <$> cmd_maps h1 !! ts
    = Some {[ "add"; "block"; "cat"; "commands"; "get"; "filestore" ]} ∧
    size <$> old_maps h1 !! to = Some 30 ∧
    dom <$> cmd_maps h1 !! tros = Some {[ "commands"; "cat"; "block"; "get" ]} ∧
    dom <$> old_maps h1 !! troo
    = Some {[ "dns"; "ls"; "name"; "object"; "dag"; "refs"; "resolve"; "version" ]}.
Proof.
  destruct h0 as [cs os cm om].
  run_package_vars.
  eexists _, _, tRoot, tOld, tRO, tROOld. split; [reflexivity |].
  cbn [Root RootRO RefsROCmd rootSubcommands rootOldSubcommands rootROSubcommands
       rootROOldSubcommands].
  assert (HRoot : (<[pBlock:=cmds.set_Subcommands (Some tBlock) cmds.zero]>
            (<[pCDRO:=CommandsLit pRO]>
               (<[pRO:=cmds.zero]>
                  (<[pCDC:=CommandsLit pRoot]> (<[pRoot:=RootLit]> cs)))))
            !! pRoot = Some RootLit) by solve_lookup.
  assert (HRO : (<[pBlock:=cmds.set_Subcommands (Some tBlock) cmds.zero]>
            (<[pCDRO:=CommandsLit pRO]>
               (<[pRO:=cmds.zero]>
                  (<[pCDC:=CommandsLit pRoot]> (<[pRoot:=RootLit]> cs)))))
            !! pRO = Some cmds.zero) by solve_lookup.
  split; [exact HRoot |]. split; [exact HRO |].
  split; [solve_lookup |].
  split; [unfold children; heap_simpl; rewrite HRoot; reflexivity |].
  split; [unfold children; heap_simpl; rewrite HRO; reflexivity |].
  split; [reflexivity |]. split; [reflexivity |].
  split; [reflexivity |]. split; [reflexivity |].
  heap_simpl.
  split.
  { rewrite !(lookup_insert_ne _ _ tRoot) by congruence.
    rewrite lookup_insert_eq. cbn [fmap option_fmap option_map]. apply (f_equal Some). by_decision. }
  split.
  { rewrite !(lookup_insert_ne _ _ tOld) by congruence.
    rewrite lookup_insert_eq. cbn [fmap option_fmap option_map]. apply (f_equal Some).
    vm_compute. reflexivity. }
  split.
  { rewrite lookup_insert_eq. cbn [fmap option_fmap option_map]. apply (f_equal Some). by_decision. }
  rewrite lookup_insert_eq. cbn [fmap option_fmap option_map]. apply (f_equal Some). by_decision.
Qed.

(** ** The header of the restricted root *)

(** X2: [init] processes the help of [Root] before it copies [Root] into
    [RootRO], and touches only the children maps afterwards: the two roots
    end with the same options, the same processed help text, the same
    handler (none) and the same remaining fields; their children maps are
    the only fields that differ. *)
Theorem RootRO_shares_header E h0 :
  env_wf E h0 →
  ∃ v h full ro,
    startup E h0 = Some (v, h) ∧
    cmd_store h !! Root v = Some full ∧
    cmd_store h !! RootRO v = Some ro ∧
    Root v ≠ RootRO v ∧
    cmds.Options ro = cmds.Options full ∧
    cmds.Helptext ro = cmds.Helptext full ∧
    cmds.Run ro = cmds.Run full ∧
    cmds.Rest ro = cmds.Rest full ∧
    cmds.Helptext full = process_help E RootHelptext ∧
    cmds.Options full = RootOptions ∧
    cmds.Run full = None ∧
    ro = cmds.set_OldSubcommands (rootROOldSubcommands v)
           (cmds.set_Subcommands (rootROSubcommands v) full).
Proof.
  intros Hwf.
  destruct (startup_started _ _ Hwf) as (v & a & h & Hrun & St).
  pose proof (st_new_cmds _ _ _ _ _ St) as Nc.
  eexists v, h, _, _.
  split; [exact Hrun |].
  split; [exact (st_Root _ _ _ _ _ St) |].
  split; [exact (st_RootRO _ _ _ _ _ St) |].
  split.
  { apply NoDup_cons in Nc as [Nc _]. intros Heq. apply Nc. rewrite Heq at 1. in_list. }
  unfold root_final, cmds.set_OldSubcommands, cmds.set_Subcommands.
  cbn [cmds.Options cmds.Helptext cmds.Run cmds.Rest cmds.Subcommands
       cmds.OldSubcommands].
  split; [reflexivity |]. split; [reflexivity |]. split; [reflexivity |].
  split; [reflexivity |]. split; [reflexivity |]. split; [reflexivity |].
  split; reflexivity.
Qed.

Lemma RootRO_shares_header_witness :
  env_wf sample_env sample_heap ∧
  ∃ v h full ro,
    startup sample_env sample_heap = Some (v, h) ∧
    cmd_store h !! Root v = Some full ∧
    cmd_store h !! RootRO v = Some ro ∧
    cmds.Options ro = cmds.Options full ∧
    cmds.Helptext ro = cmds.Helptext full.
Proof.
  assert (Hwf : env_wf sample_env sample_heap)
    by (apply env_wfb_true; vm_compute; reflexivity).
  split; [exact Hwf |].
  destruct (RootRO_shares_header sample_env sample_heap Hwf)
    as (v & h & full & ro & Hrun & Hf & Hr & _ & Ho & Hh & _).
  exists v, h, full, ro. repeat split; assumption.
Defined.

(** ** What initialisation leaves alone *)

(** X3: Initialisation writes only to what it allocates.  Every command struct
    and every table that the heap held before is the same afterwards; in
    particular each command declared in another file, among them the ones
    whose restricted counterparts are rebuilt or pruned, keeps its fields and
    its children, and the environment is as well formed as before. *)
Theorem startup_preserves_heap E h0 :
  env_wf E h0 →
  ∃ v h,
    startup E h0 = Some (v, h) ∧
    (∀ p c, cmd_store h0 !! p = Some c → cmd_store h !! p = Some c) ∧
    (∀ p c, old_store h0 !! p = Some c → old_store h !! p = Some c) ∧
    (∀ i t, cmd_maps h0 !! i = Some t → cmd_maps h !! i = Some t) ∧
    (∀ i t, old_maps h0 !! i = Some t → old_maps h !! i = Some t) ∧
    (∀ x, cmd_store h !! modern E x = cmd_store h0 !! modern E x) ∧
    (∀ x, old_store h !! legacy E x = old_store h0 !! legacy E x) ∧
    (∀ x t, old_children h0 (legacy E x) = Some t →
            old_children h (legacy E x) = Some t) ∧
    env_wf E h.
Proof.
  intros Hwf.
  destruct (startup_started _ _ Hwf) as (v & a & h & Hrun & St).
  pose proof (st_cmd_frame _ _ _ _ _ St) as Fc.
  pose proof (st_old_frame _ _ _ _ _ St) as Fo.
  pose proof (st_cmd_maps_frame _ _ _ _ _ St) as Fcm.
  pose proof (st_old_maps_frame _ _ _ _ _ St) as Fom.
  exists v, h. split; [exact Hrun |].
  split. { intros p c Hp. rewrite Fc; [exact Hp | apply elem_of_dom; eauto]. }
  split. { intros p c Hp. rewrite Fo; [exact Hp | apply elem_of_dom; eauto]. }
  split. { intros i t Hi. rewrite Fcm; [exact Hi | apply elem_of_dom; eauto]. }
  split. { intros i t Hi. rewrite Fom; [exact Hi | apply elem_of_dom; eauto]. }
  split. { intros x. apply Fc, (wf_modern _ _ Hwf). }
  split. { intros x. apply Fo, (wf_legacy _ _ Hwf). }
  split.
  { intros x t. unfold old_children. rewrite (Fo _ (wf_legacy _ _ Hwf x)).
    destruct (old_store h0 !! legacy E x) as [c |]; [| discriminate].
    destruct (oldcmds.Subcommands c) as [i |]; cbn [map_contents]; [| exact id].
    intros Hi. rewrite Fom; [exact Hi | apply elem_of_dom; eauto]. }
  split.
  - intros x. apply elem_of_dom. rewrite (Fc _ (wf_modern _ _ Hwf x)).
    apply elem_of_dom, (wf_modern _ _ Hwf).
  - intros x. apply elem_of_dom. rewrite (Fo _ (wf_legacy _ _ Hwf x)).
    apply elem_of_dom, (wf_legacy _ _ Hwf).
  - intros c. rewrite (Fo _ (wf_legacy _ _ Hwf RefsCmd)). intros Hc.
    pose proof (wf_refs _ _ Hwf c Hc) as Hlive.
    destruct (oldcmds.Subcommands c) as [i |]; cbn [mapref_live] in *; [| done].
    apply elem_of_dom. rewrite (Fom _ Hlive). by apply elem_of_dom.
Qed.

Lemma startup_preserves_heap_witness :
  env_wf sample_env sample_heap ∧
  ∃ v h,
    startup sample_env sample_heap = Some (v, h) ∧
    old_children h (legacy sample_env RefsCmd)
    = Some {[ "local" := 40%positive ]} ∧
    env_wf sample_env h.
Proof.
  assert (Hwf : env_wf sample_env sample_heap)
    by (apply env_wfb_true; vm_compute; reflexivity).
  split; [exact Hwf |].
  destruct (startup_preserves_heap sample_env sample_heap Hwf)
    as (v & h & Hrun & _ & _ & _ & _ & _ & _ & Hch & Hwf').
  exists v, h. split; [exact Hrun |]. split; [| exact Hwf'].
  apply (Hch RefsCmd). vm_compute. reflexivity.
Defined.

(** ** What initialisation allocates *)

Lemma size_from_dom {V} (s s0 : gmap positive V) (l : list positive) :
  dom s = dom s0 ∪ list_to_set l →
  NoDup l →
  (∀ p, p ∈ l → p ∉ dom s0) →
  size s = size s0 + length l.
Proof.
  intros Hdom Hnd Hfresh.
  rewrite <- (size_dom s), Hdom, size_union, size_dom, size_list_to_set; [done | done |].
  intros p Hp Hl. apply elem_of_list_to_set in Hl. exact (Hfresh p Hl Hp).
Qed.

Ltac solve_dom_eq :=
  rewrite !dom_insert_L; cbn [list_to_set foldr];
  let x := fresh "x" in
  apply set_eq; intros x;
  rewrite ?elem_of_union, ?elem_of_singleton, ?elem_of_empty; clear; tauto.

Ltac note_dom D :=
  lazymatch goal with
  | |- dom ?s = ?r ∧ _ => assert (D : dom s = r) by solve_dom_eq; split; [exact D |]
  end.

(** X4: Initialisation allocates five modern commands, five legacy commands,
    three tables of modern children and six tables of legacy children, all
    at addresses not in use before and all different, and frees nothing:
    the heap afterwards holds what it held before and these, no more. *)
Theorem startup_footprint E h0 :
  env_wf E h0 →
  ∃ v a h,
    startup E h0 = Some (v, h) ∧
    dom (cmd_store h)
    = dom (cmd_store h0)
      ∪ list_to_set [Root v; CommandsDaemonCmd v; RootRO v; CommandsDaemonROCmd v;
                     blockRO a] ∧
    dom (old_store h)
    = dom (old_store h0)
      ∪ list_to_set [update a; RefsROCmd v; nameRO a; objectRO a; dagRO a] ∧
    dom (cmd_maps h)
    = dom (cmd_maps h0) ∪ list_to_set [t_root a; t_rootRO a; t_block a] ∧
    dom (old_maps h)
    = dom (old_maps h0)
      ∪ list_to_set [t_rootOld a; t_rootROOld a; t_name a; t_object a; t_dag a;
                     t_refsRO a] ∧
    size (cmd_store h) = size (cmd_store h0) + 5 ∧
    size (old_store h) = size (old_store h0) + 5 ∧
    size (cmd_maps h) = size (cmd_maps h0) + 3 ∧
    size (old_maps h) = size (old_maps h0) + 6.
Proof.
  intros [Hm Hl Hr]. destruct h0 as [cs os cm om]. heap_simpl.
  destruct (proj1 (elem_of_dom os (legacy E RefsCmd)) (Hl RefsCmd)) as [refs Hrefs].
  unfold startup, init, ProcessHelp, assign_Subcommands, assign_OldSubcommands,
    assign_old_Subcommands.
  cbn [Root RootRO RefsROCmd rootSubcommands rootOldSubcommands rootROSubcommands
       rootROOldSubcommands].
  run_package_vars.
  assert (Hfr : ∀ p, p ∉ dom os → legacy E RefsCmd ≠ p).
  { intros p Hp Heq. subst p. apply Hp, Hl. }
  pose proof (Hfr _ F4). pose proof (Hfr _ F8). pose proof (Hfr _ F13).
  pose proof (Hfr _ F15). pose proof (Hfr _ F17). clear Hfr.
  rewrite ?bind_assoc, bind_ret.
  cbn [Root RootRO RefsROCmd rootSubcommands rootOldSubcommands rootROSubcommands
       rootROOldSubcommands].
  step_load_cmd. step_store_cmd.
  step_load_cmd. step_store_cmd.
  step_load_old. step_store_old.
  step_old_map tRefs F19. split_fresh.
  step_load_old. step_store_old.
  step_load_cmd. step_store_cmd.
  step_load_cmd. step_store_cmd.
  step_load_cmd. step_store_cmd.
  step_load_cmd. unfold bind. erewrite store_cmd_run by solve_lookup. heap_simpl.
  eexists _,
    {| update := pUpd; blockRO := pBlock; nameRO := pName; objectRO := pObject;
       dagRO := pDag; t_root := tRoot; t_rootOld := tOld; t_rootRO := tRO;
       t_rootROOld := tROOld; t_block := tBlock; t_name := tName;
       t_object := tObject; t_dag := tDag; t_refsRO := tRefs |}, _.
  split; [reflexivity |].
  cbn [Root RootRO RefsROCmd CommandsDaemonCmd CommandsDaemonROCmd
       update blockRO nameRO objectRO dagRO t_root t_rootOld t_rootRO t_rootROOld
       t_block t_name t_object t_dag t_refsRO]; heap_simpl.
  note_dom D1. note_dom D2. note_dom D3. note_dom D4.
  split; [| split; [| split]].
  - rewrite (size_from_dom _ _ _ D1); [reflexivity | solve_NoDup | solve_fresh_list].
  - rewrite (size_from_dom _ _ _ D2); [reflexivity | solve_NoDup | solve_fresh_list].
  - rewrite (size_from_dom _ _ _ D3); [reflexivity | solve_NoDup | solve_fresh_list].
  - rewrite (size_from_dom _ _ _ D4); [reflexivity | solve_NoDup | solve_fresh_list].
Qed.

Lemma startup_footprint_witness :
  env_wf sample_env sample_heap ∧
  ∃ v h,
    startup sample_env sample_heap = Some (v, h) ∧
    size (cmd_store h) = size (cmd_store sample_heap) + 5 ∧
    size (old_maps h) = size (old_maps sample_heap) + 6.
Proof.
  assert (Hwf : env_wf sample_env sample_heap)
    by (apply env_wfb_true; vm_compute; reflexivity).
  split; [exact Hwf |].
  destruct (startup_footprint sample_env sample_heap Hwf)
    as (v & a & h & Hrun & _ & _ & _ & _ & H1 & _ & _ & H4).
  exists v, h. repeat split; assumption.
Defined.

(** ** The namespaces of the restricted tree *)

(** X5: Under "block", "name", "object" and "dag" the restricted root holds
    nodes that are namespaces only: no handler, no help text, no options.
    Their children are exactly the entries written in root.go, each the very
    command a variable of another file holds, and the tables of these
    children are new: no table that existed before is shared with them. *)
Theorem restricted_namespaces E h0 :
  env_wf E h0 →
  ∃ v h s o pb pn po pd cb cn co cd,
    startup E h0 = Some (v, h) ∧
    children h (RootRO v) = Some (s, o) ∧
    s !! "block" = Some pb ∧ o !! "name" = Some pn ∧
    o !! "object" = Some po ∧ o !! "dag" = Some pd ∧
    cmd_store h !! pb = Some cb ∧ old_store h !! pn = Some cn ∧
    old_store h !! po = Some co ∧ old_store h !! pd = Some cd ∧
    (cmds.Run cb = None ∧ cmds.Helptext cb = cmdsutil.noHelp ∧ cmds.Options cb = []) ∧
    (oldcmds.Run cn = None ∧ oldcmds.Helptext cn = cmdsutil.noHelp ∧ oldcmds.Options cn = []) ∧
    (oldcmds.Run co = None ∧ oldcmds.Helptext co = cmdsutil.noHelp ∧ oldcmds.Options co = []) ∧
    (oldcmds.Run cd = None ∧ oldcmds.Helptext cd = cmdsutil.noHelp ∧ oldcmds.Options cd = []) ∧
    children h pb
    = Some (list_to_map [("stat", modern E blockStatCmd);
                         ("get", modern E blockGetCmd)], ∅) ∧
    old_children h pn = Some (list_to_map [("resolve", legacy E IpnsCmd)]) ∧
    old_children h po
    = Some (list_to_map [("data", legacy E ocmd_ObjectDataCmd);
                         ("links", legacy E ocmd_ObjectLinksCmd);
                         ("get", legacy E ocmd_ObjectGetCmd);
                         ("stat", legacy E ocmd_ObjectStatCmd);
                         ("patch", legacy E ocmd_ObjectPatchCmd)]) ∧
    old_children h pd = Some (list_to_map [("get", legacy E dag_DagGetCmd)]) ∧
    (∀ i, i ∈ dom (cmd_maps h0) → cmds.Subcommands cb ≠ Some i) ∧
    (∀ i, i ∈ dom (old_maps h0) →
          oldcmds.Subcommands cn ≠ Some i ∧ oldcmds.Subcommands co ≠ Some i ∧
          oldcmds.Subcommands cd ≠ Some i).
Proof.
  intros Hwf.
  destruct (startup_started _ _ Hwf) as (v & a & h & Hrun & St).
  pose proof (st_fresh_cmd_maps _ _ _ _ _ St) as Fcm.
  pose proof (st_fresh_old_maps _ _ _ _ _ St) as Fom.
  eexists v, h, _, _, (blockRO a), (nameRO a), (objectRO a), (dagRO a), _, _, _, _.
  split; [exact Hrun |].
  split; [exact (started_children_RootRO _ _ _ _ _ St) |].
  rewrite !list_to_map_assoc.
  split; [reflexivity |]. split; [reflexivity |].
  split; [reflexivity |]. split; [reflexivity |].
  split; [exact (st_blockRO _ _ _ _ _ St) |].
  split; [exact (st_nameRO _ _ _ _ _ St) |].
  split; [exact (st_objectRO _ _ _ _ _ St) |].
  split; [exact (st_dagRO _ _ _ _ _ St) |].
  split; [split; [| split]; reflexivity |].
  split; [split; [| split]; reflexivity |].
  split; [split; [| split]; reflexivity |].
  split; [split; [| split]; reflexivity |].
  unfold children, old_children.
  rewrite (st_blockRO _ _ _ _ _ St), (st_nameRO _ _ _ _ _ St),
    (st_objectRO _ _ _ _ _ St), (st_dagRO _ _ _ _ _ St).
  cbn [cmds.set_Subcommands oldcmds.set_Subcommands cmds.Subcommands
       cmds.OldSubcommands oldcmds.Subcommands cmds.zero oldcmds.zero map_contents].
  rewrite (st_t_block _ _ _ _ _ St), (st_t_name _ _ _ _ _ St),
    (st_t_object _ _ _ _ _ St), (st_t_dag _ _ _ _ _ St).
  split; [reflexivity |]. split; [reflexivity |].
  split; [reflexivity |]. split; [reflexivity |].
  split.
  - intros i Hi Heq. injection Heq as Heq. apply (Fcm (t_block a)); [in_list |].
    rewrite Heq. exact Hi.
  - intros i Hi. split; [| split]; intros Heq; injection Heq as Heq.
    + apply (Fom (t_name a)); [in_list |]. rewrite Heq. exact Hi.
    + apply (Fom (t_object a)); [in_list |]. rewrite Heq. exact Hi.
    + apply (Fom (t_dag a)); [in_list |]. rewrite Heq. exact Hi.
Qed.

Lemma restricted_namespaces_witness :
  env_wf sample_env sample_heap ∧
  ∃ v h s o pb cb,
    startup sample_env sample_heap = Some (v, h) ∧
    children h (RootRO v) = Some (s, o) ∧
    s !! "block" = Some pb ∧
    cmd_store h !! pb = Some cb ∧
    cmds.Run cb = None.
Proof.
  assert (Hwf : env_wf sample_env sample_heap)
    by (apply env_wfb_true; vm_compute; reflexivity).
  split; [exact Hwf |].
  destruct (restricted_namespaces sample_env sample_heap Hwf)
    as (v & h & s & o & pb & pn & po & pd & cb & cn & co & cd & Hrun & Hc & Hb
        & _ & _ & _ & Hcb & _ & _ & _ & (Hr & _) & _).
  exists v, h, s, o, pb, cb. repeat split; assumption.
Defined.

(** ** What the restricted root hides *)

(** X7: Twenty-four names of the full root have no entry under the restricted
    root, among them everything that adds, pins, configures or shuts down;
    the names of the full root are the names of the restricted root and
    these, no more. *)
Theorem restricted_root_hides E h0 :
  env_wf E h0 →
  ∃ v h s o s' o',
    startup E h0 = Some (v, h) ∧
    children h (RootRO v) = Some (s, o) ∧
    children h (Root v) = Some (s', o') ∧
    (∀ name, name ∈ hidden_names →
       name ∈ dom s' ∪ dom o' ∧ name ∉ dom s ∪ dom o) ∧
    dom s' ∪ dom o' = (dom s ∪ dom o) ∪ list_to_set hidden_names ∧
    size (dom s' ∪ dom o') = 36 ∧
    size (dom s ∪ dom o) = 12.
Proof.
  intros Hwf.
  destruct (startup_started _ _ Hwf) as (v & a & h & Hrun & St).
  eexists v, h, _, _, _, _.
  split; [exact Hrun |].
  split; [exact (started_children_RootRO _ _ _ _ _ St) |].
  split; [exact (started_children_Root _ _ _ _ _ St) |].
  split; [rewrite <- Forall_forall; by_decision |].
  split; [by_decision |].
  split; vm_compute; reflexivity.
Qed.

Lemma restricted_root_hides_witness :
  env_wf sample_env sample_heap ∧
  ∃ v h s o,
    startup sample_env sample_heap = Some (v, h) ∧
    children h (RootRO v) = Some (s, o) ∧
    ("add" ∉ dom s ∪ dom o) ∧ ("shutdown" ∉ dom s ∪ dom o).
Proof.
  assert (Hwf : env_wf sample_env sample_heap)
    by (apply env_wfb_true; vm_compute; reflexivity).
  split; [exact Hwf |].
  destruct (restricted_root_hides sample_env sample_heap Hwf)
    as (v & h & s & o & s' & o' & Hrun & Hro & _ & Hhid & _).
  exists v, h, s, o. split; [exact Hrun |]. split; [exact Hro |]. split.
  - apply Hhid. apply list_elem_of_here.
  - apply Hhid. unfold hidden_names. in_list.
Defined.

(** ** Names of the global options *)

(** X8: No two global options of either root share a long name or an alias:
    the names and aliases of the six options are nine different strings. *)
Theorem root_option_names_unique E h0 :
  env_wf E h0 →
  ∃ v h,
    startup E h0 = Some (v, h) ∧
    ∀ root, root = Root v ∨ root = RootRO v →
      ∃ c, cmd_store h !! root = Some c ∧
           NoDup (concat (cmdsutil.Names <$> cmds.Options c)) ∧
           length (concat (cmdsutil.Names <$> cmds.Options c)) = 9.
Proof.
  intros Hwf.
  destruct (startup_started _ _ Hwf) as (v & a & h & Hrun & St).
  exists v, h. split; [exact Hrun |].
  intros root [-> | ->]; eexists;
    (split; [first [exact (st_Root _ _ _ _ _ St) | exact (st_RootRO _ _ _ _ _ St)] |]);
    cbn [root_final cmds.Options]; (split; [by_decision | reflexivity]).
Qed.

Lemma root_option_names_unique_witness :
  env_wf sample_env sample_heap ∧
  ∃ v h c,
    startup sample_env sample_heap = Some (v, h) ∧
    cmd_store h !! RootRO v = Some c ∧
    NoDup (concat (cmdsutil.Names <$> cmds.Options c)).
Proof.
  assert (Hwf : env_wf sample_env sample_heap)
    by (apply env_wfb_true; vm_compute; reflexivity).
  split; [exact Hwf |].
  destruct (root_option_names_unique sample_env sample_heap Hwf)
    as (v & h & Hrun & Hall).
  destruct (Hall (RootRO v) (or_intror eq_refl)) as (c & Hc & Hnd & _).
  exists v, h, c. repeat split; assumption.
Defined.

(** ** More on the text marshaler *)

(** X9: Whatever the message is, the empty one included, a [*MessageOutput]
    payload comes back as a reader over exactly that message, with no
    error. *)
Theorem MessageTextMarshaler_reads_back
    (unwrapOutput : iface → iface * option error) (res : Response)
    (m : MessageOutput) :
  unwrapOutput (Output res) = (MessageOutputPtr (Some m), None) →
  ∃ r, MessageTextMarshaler unwrapOutput res = Some (Some r, None) ∧
       ReadAll r = Message m.
Proof.
  intros Hun. unfold MessageTextMarshaler. rewrite Hun. cbn.
  eexists. split; reflexivity.
Qed.

Lemma MessageTextMarshaler_reads_back_witness :
  ∃ r, MessageTextMarshaler unwrap_plain
         {| Output := MessageOutputPtr (Some {| Message := EmptyString |}) |}
       = Some (Some r, None) ∧
       ReadAll r = EmptyString.
Proof.
  apply (MessageTextMarshaler_reads_back unwrap_plain
           {| Output := MessageOutputPtr (Some {| Message := EmptyString |}) |}
           {| Message := EmptyString |}).
  reflexivity.
Defined.

(** X10: An error of [unwrapOutput] comes first: it is returned as it is, with
    no reader, whatever value came with it; the value is not looked at, so
    not even a nil [*MessageOutput] makes the marshaler panic then. *)
Theorem MessageTextMarshaler_unwrap_error_first
    (unwrapOutput : iface → iface * option error) (res : Response)
    (v : iface) (e : error) :
  unwrapOutput (Output res) = (v, Some e) →
  MessageTextMarshaler unwrapOutput res = Some (None, Some e).
Proof.
  intros Hun. unfold MessageTextMarshaler. rewrite Hun. reflexivity.
Qed.

Lemma MessageTextMarshaler_unwrap_error_first_witness :
  MessageTextMarshaler (λ _, (MessageOutputPtr None, Some (OtherErr "closed")))
    {| Output := Nil |}
  = Some (None, Some (OtherErr "closed")).
Proof.
  apply (MessageTextMarshaler_unwrap_error_first
           (λ _, (MessageOutputPtr None, Some (OtherErr "closed")))
           {| Output := Nil |} (MessageOutputPtr None) (OtherErr "closed")).
  reflexivity.
Defined.

(** X11: The marshaler panics in one case only, a nil [*MessageOutput] that
    arrives without an error.  Whenever it returns, it returns a reader or
    an error and never both: a reader exactly when there is no error. *)
Theorem MessageTextMarshaler_outcomes
    (unwrapOutput : iface → iface * option error) (res : Response) :
  (MessageTextMarshaler unwrapOutput res = None ↔
   unwrapOutput (Output res) = (MessageOutputPtr None, None)) ∧
  (∀ r e, MessageTextMarshaler unwrapOutput res = Some (r, e) →
          (is_Some r ↔ e = None)).
Proof.
  unfold MessageTextMarshaler.
  destruct (unwrapOutput (Output res)) as [v [e |]].
  - split.
    + split; discriminate.
    + intros r e' [= <- <-]. split; [intros [x Hx]; discriminate Hx | discriminate].
  - destruct v as [| [m |] | m | s | n]; cbn; split;
      try (split; discriminate);
      try (intros r e' [= <- <-];
           split; [intros [x Hx]; discriminate Hx | discriminate]).
    + intros r e' [= <- <-]. split; [reflexivity | eexists; reflexivity].
    + split; reflexivity.
Qed.

Lemma MessageTextMarshaler_outcomes_witness :
  MessageTextMarshaler unwrap_plain {| Output := MessageOutputPtr None |} = None.
Proof.
  apply (proj2 (proj1 (MessageTextMarshaler_outcomes unwrap_plain
                         {| Output := MessageOutputPtr None |}))).
  reflexivity.
Defined.

(** On the sample heap the two declarations take the legacy addresses 37
    and 38, and these are what the full root holds under "files" and
    "file"; the restricted root holds neither name. *)
Example sample_files_and_file :
  match declare_files_unixfs sample_env (sample_old files_FilesCmd)
          (sample_old unixfs_UnixFSCmd) sample_heap with
  | Some (E', h0') =>
      (λ r, (entries_under "files" r, entries_under "file" r)) <$> startup E' h0'
  | None => None
  end
  = Some ((Some (None, None), Some (None, Some 37%positive)),
          (Some (None, None), Some (None, Some 38%positive))).
Proof. vm_compute. reflexivity. Qed.
